(** * windowToggle: the Window-Toggle coordinator

    A shallow embedding of [WindowToggleSubscriber]
    (src/internal/operators/windowToggle.ts).

    The coordinator object is a record of its fields; every method is a
    function in a small state-and-exception monad.  Calls made on the
    collaborating objects (the window [Subject]s, the per-window
    [Subscription]s, the downstream [destination]) are appended to a trace,
    so that the order in which the coordinator drives its collaborators can
    be stated and proved. *)

From Stdlib Require Import List ZArith Bool Lia Arith Sorted.
Import ListNotations.

Set Implicit Arguments.

(** ** Objects and references *)

(** Objects created with [new] are identified by their address. *)
Definition Addr := nat.

(** [interface WindowContext<T> { window: Subject<T>; subscription: Subscription; }]
    Every context literal holds a freshly allocated [Subject], so structural
    equality of the record coincides with reference identity of the literal. *)
Record WindowContext := mkContext {
  window : Addr;
  subscription : Addr
}.

Definition WindowContext_eqb (a b : WindowContext) : bool :=
  Nat.eqb (window a) (window b) && Nat.eqb (subscription a) (subscription b).

(** The [InnerSubscriber] handed back by [subscribeToResult]: its identity,
    its [closed] flag and the [context] property that [notifyNext] attaches
    to it ([None] is [undefined]). *)
Record InnerSubscriber := mkInner {
  inner_addr : Addr;
  inner_closed : bool;
  inner_context : option WindowContext
}.

(** The [outerValue] tag of a multiplexed notification: either the
    [openings] observable itself or the context of one window. *)
Inductive Tag :=
| TagOpenings
| TagContext (c : WindowContext).

(** The only language-level fault the coordinator itself can raise. *)
Inductive JsException := TypeError.

Inductive Completion (A : Type) :=
| Normal (a : A)
| Throw (e : JsException).
Arguments Throw {A} e.

(** ** Array helpers, as JavaScript has them *)

(** [contexts[index]]: [None] is [undefined] (index out of range). *)
Definition array_get {A} (l : list A) (index : Z) : option A :=
  if (index <? 0)%Z then None else nth_error l (Z.to_nat index).

(** [contexts.splice(index, 1)] for an index inside the array. *)
Definition splice1 {A} (l : list A) (index : Z) : list A :=
  firstn (Z.to_nat index) l ++ skipn (S (Z.to_nat index)) l.

Fixpoint indexOf_from (l : list WindowContext) (x : WindowContext) (i : Z) : Z :=
  match l with
  | [] => (-1)%Z
  | y :: l' => if WindowContext_eqb y x then i else indexOf_from l' x (i + 1)%Z
  end.

(** [contexts.indexOf(x)]; the array never holds [undefined], so looking
    [undefined] up answers [-1]. *)
Definition indexOf (l : list WindowContext) (x : option WindowContext) : Z :=
  match x with
  | None => (-1)%Z
  | Some c => indexOf_from l c 0%Z
  end.

Section WindowToggle.

(** [T] is the type of the source values; [Any] stands for everything the
    source types as [any] or [O]: opening values, values of the closing
    notifiers and error causes. *)
Context {T Any : Type}.

(** ** Closing notifiers and the closing selector *)

(** What a producer sends synchronously, during the [subscribe] call. *)
Inductive Notification :=
| OnNext (value : Any)
| OnError (err : Any)
| OnComplete.

(** A closing notifier, seen through the notifications it delivers before
    [subscribeToResult] returns.  A notifier driven by a timer delivers
    none ([[]]); an empty producer delivers [[OnComplete]]. *)
Definition Producer := list Notification.

(** The outcome of [tryCatch(closingSelector)(innerValue)]. *)
Inductive SelectorResult :=
| Returns (closingNotifier : Producer)
| Throws (e : Any).

(** ** The trace of calls on the collaborators *)

Inductive Event :=
| NewSubject (w : Addr)                      (* new Subject<T>() *)
| NewSubscription (s : Addr)                 (* new Subscription() *)
| WindowNext (w : Addr) (value : T)          (* window.next(value) *)
| WindowError (w : Addr) (err : Any)         (* window.error(err) *)
| WindowComplete (w : Addr)                  (* window.complete() *)
| WindowUnsubscribe (w : Addr)               (* window.unsubscribe() *)
| SubscriptionUnsubscribe (s : Addr)         (* subscription.unsubscribe() *)
| SubscriptionAdd (s : Addr) (inner : Addr)  (* subscription.add(inner) *)
| DestinationNext (o : Addr)                 (* destination.next(window) *)
| DestinationError (err : Any)               (* destination.error(err) *)
| DestinationComplete                        (* destination.complete() *)
| TeardownChildren.                          (* the composed child handles are cancelled *)

(** ** The coordinator and its environment *)

Record State := mkState {
  contexts : option (list WindowContext);  (* [None] is [null] *)
  openSubscription : Addr;
  closingSelector : Any -> SelectorResult; (* private closingSelector *)
  isStopped : bool;                        (* Subscriber.isStopped *)
  closed : bool;                           (* Subscription.closed *)
  openingsStopped : bool;                  (* the openings' InnerSubscriber is stopped,
                                              once its handle is composed *)
  next_addr : Addr;                        (* allocation counter *)
  trace : list Event
}.

Definition with_contexts (cs : option (list WindowContext)) (s : State) : State :=
  mkState cs (openSubscription s) (closingSelector s) (isStopped s) (closed s)
          (openingsStopped s) (next_addr s) (trace s).

Definition with_isStopped (b : bool) (s : State) : State :=
  mkState (contexts s) (openSubscription s) (closingSelector s) b (closed s)
          (openingsStopped s) (next_addr s) (trace s).

Definition with_closed (b : bool) (s : State) : State :=
  mkState (contexts s) (openSubscription s) (closingSelector s) (isStopped s) b
          (openingsStopped s) (next_addr s) (trace s).

Definition with_openingsStopped (b : bool) (s : State) : State :=
  mkState (contexts s) (openSubscription s) (closingSelector s) (isStopped s) (closed s)
          b (next_addr s) (trace s).

Definition with_next_addr (n : Addr) (s : State) : State :=
  mkState (contexts s) (openSubscription s) (closingSelector s) (isStopped s) (closed s)
          (openingsStopped s) n (trace s).

Definition with_trace (t : list Event) (s : State) : State :=
  mkState (contexts s) (openSubscription s) (closingSelector s) (isStopped s) (closed s)
          (openingsStopped s) (next_addr s) t.

(** The contexts currently in the array; none once the field is [null]. *)
Definition active (s : State) : list WindowContext :=
  match contexts s with
  | Some l => l
  | None => []
  end.

(** ** The monad of method bodies *)

Definition M (A : Type) := State -> Completion A * State.

Definition ret {A} (a : A) : M A := fun s => (Normal a, s).

Definition bind {A B} (m : M A) (k : A -> M B) : M B :=
  fun s =>
    match m s with
    | (Normal a, s') => k a s'
    | (Throw e, s') => (Throw e, s')
    end.

Definition throw {A} (e : JsException) : M A := fun s => (Throw e, s).

Notation "x <- m ;; k" := (bind m (fun x => k))
  (at level 61, m at next level, right associativity).
Notation "m ;; k" := (bind m (fun _ => k))
  (at level 61, right associativity).

Definition emit (ev : Event) : M unit :=
  fun s => (Normal tt, with_trace (trace s ++ [ev]) s).

Definition alloc : M Addr :=
  fun s => (Normal (next_addr s), with_next_addr (S (next_addr s)) s).

Definition get_contexts : M (option (list WindowContext)) :=
  fun s => (Normal (contexts s), s).

Definition get_closingSelector : M (Any -> SelectorResult) :=
  fun s => (Normal (closingSelector s), s).

Definition set_contexts (cs : option (list WindowContext)) : M unit :=
  fun s => (Normal tt, with_contexts cs s).

Definition set_isStopped (b : bool) : M unit :=
  fun s => (Normal tt, with_isStopped b s).

Definition set_closed (b : bool) : M unit :=
  fun s => (Normal tt, with_closed b s).

Definition set_openingsStopped (b : bool) : M unit :=
  fun s => (Normal tt, with_openingsStopped b s).

(** [for]/[while] over a captured array, in index order. *)
Fixpoint forEach {A} (l : list A) (body : A -> M unit) : M unit :=
  match l with
  | [] => ret tt
  | x :: l' => body x ;; forEach l' body
  end.

(** ** Collaborators

    The Broadcast Sink ([Subject]), the Cancellation Handle
    ([Subscription]) and the downstream consumer are external collaborators
    whose classes are not part of the file.  A call on one of them is
    recorded in the trace and does not call back into the coordinator. *)

(** Modelled from the spec: [new Subject<T>()], the constructor of the
    Broadcast Sink; the new object gets a fresh address. *)
Definition new_Subject : M Addr :=
  w <- alloc ;; emit (NewSubject w) ;; ret w.

(** Modelled from the spec: [new Subscription()], an empty Cancellation
    Handle at a fresh address. *)
Definition new_Subscription : M Addr :=
  sub <- alloc ;; emit (NewSubscription sub) ;; ret sub.

(** Modelled from the spec: the consumer side of the Broadcast Sink,
    [window.next], [window.error], [window.complete], and its cancellation
    [window.unsubscribe]. *)
Definition Subject_next (w : Addr) (value : T) : M unit := emit (WindowNext w value).
Definition Subject_error (w : Addr) (err : Any) : M unit := emit (WindowError w err).
Definition Subject_complete (w : Addr) : M unit := emit (WindowComplete w).
Definition Subject_unsubscribe (w : Addr) : M unit := emit (WindowUnsubscribe w).

(** Modelled from the spec: [cancel()] and [add(child)] of the Cancellation
    Handle. *)
Definition Subscription_unsubscribe (sub : Addr) : M unit := emit (SubscriptionUnsubscribe sub).
Definition Subscription_add (sub inner : Addr) : M unit := emit (SubscriptionAdd sub inner).

(** Modelled from the spec: the downstream consumer, [this.destination]. *)
Definition destination_next (o : Addr) : M unit := emit (DestinationNext o).
Definition destination_error (err : Any) : M unit := emit (DestinationError err).
Definition destination_complete : M unit := emit DestinationComplete.

(** ** Methods of [WindowToggleSubscriber] *)

(** [protected _next(value: T)] *)
Definition _next (value : T) : M unit :=
  cs <- get_contexts ;;
  match cs with
  | Some cs => forEach cs (fun c => Subject_next (window c) value)
  | None => ret tt
  end.

(** [protected _unsubscribe()] *)
Definition _unsubscribe : M unit :=
  cs <- get_contexts ;;
  set_contexts None ;;
  match cs with
  | Some cs =>
      forEach cs (fun c =>
        Subject_unsubscribe (window c) ;;
        Subscription_unsubscribe (subscription c))
  | None => ret tt
  end.

(** Modelled from the spec: [Subscriber.unsubscribe] of the base class, which
    is not part of the file.  Cancellation is idempotent; the first call
    marks the coordinator stopped and closed, runs [_unsubscribe] and then
    cancels the composed child handles, the openings subscription among
    them.  The openings subscription is a child only once the constructor
    has composed it; until then [openingsStopped] is read by nothing, and
    the constructor sets it when it composes the handle. *)
Definition unsubscribe : M unit :=
  fun s =>
    if closed s then (Normal tt, s)
    else (set_isStopped true ;;
          set_closed true ;;
          _unsubscribe ;;
          emit TeardownChildren ;;
          set_openingsStopped true) s.

(** Modelled from the spec: [super._error(err)] of the base class
    [Subscriber]: notify the downstream consumer, then cancel. *)
Definition super__error (err : Any) : M unit :=
  destination_error err ;; unsubscribe.

(** Modelled from the spec: [super._complete()] of the base class. *)
Definition super__complete : M unit :=
  destination_complete ;; unsubscribe.

(** [protected _error(err: any)] *)
Definition _error (err : Any) : M unit :=
  cs <- get_contexts ;;
  set_contexts None ;;
  match cs with
  | Some cs =>
      forEach cs (fun c =>
        Subject_error (window c) err ;;
        Subscription_unsubscribe (subscription c))
  | None => ret tt
  end ;;
  super__error err.

(** [protected _complete()] *)
Definition _complete : M unit :=
  cs <- get_contexts ;;
  set_contexts None ;;
  match cs with
  | Some cs =>
      forEach cs (fun c =>
        Subject_complete (window c) ;;
        Subscription_unsubscribe (subscription c))
  | None => ret tt
  end ;;
  super__complete.

(** Modelled from the spec: the public [next(value)] of the base class
    [Subscriber], which is not part of the file; a stopped coordinator
    takes no further value. *)
Definition next (value : T) : M unit :=
  fun s => if isStopped s then (Normal tt, s) else _next value s.

(** Modelled from the spec: the public [error(err)] of the base class; only
    one Error or Complete transition may ever occur, whichever happens
    first wins. *)
Definition error (err : Any) : M unit :=
  fun s => if isStopped s then (Normal tt, s)
           else (set_isStopped true ;; _error err) s.

(** Modelled from the spec: the public [complete()] of the base class. *)
Definition complete : M unit :=
  fun s => if isStopped s then (Normal tt, s)
           else (set_isStopped true ;; _complete) s.

(** [private closeWindow(index: number)].  Reading [contexts[index]] on
    [null], or destructuring the [undefined] found out of range, is a
    [TypeError]. *)
Definition closeWindow (index : Z) : M unit :=
  if (index =? -1)%Z then ret tt
  else
    cs <- get_contexts ;;
    match cs with
    | None => throw TypeError
    | Some cs =>
        match array_get cs index with
        | None => throw TypeError
        | Some c =>
            set_contexts (Some (splice1 cs index)) ;;
            Subject_complete (window c) ;;
            Subscription_unsubscribe (subscription c)
        end
    end.

(** [this.contexts.indexOf(x)], [this.contexts.length] and
    [this.contexts.push(context)]: each is a [TypeError] on [null]. *)
Definition contexts_indexOf (x : option WindowContext) : M Z :=
  cs <- get_contexts ;;
  match cs with
  | None => throw TypeError
  | Some cs => ret (indexOf cs x)
  end.

Definition contexts_length : M Z :=
  cs <- get_contexts ;;
  match cs with
  | None => throw TypeError
  | Some cs => ret (Z.of_nat (length cs))
  end.

Definition contexts_push (c : WindowContext) : M unit :=
  cs <- get_contexts ;;
  match cs with
  | None => throw TypeError
  | Some cs => set_contexts (Some (cs ++ [c]))
  end.

(** [notifyError(err: any)] *)
Definition notifyError (err : Any) : M unit := error err.

(** [notifyComplete(inner: Subscription)] *)
Definition notifyComplete (inner : InnerSubscriber) : M unit :=
  fun s =>
    if negb (Nat.eqb (inner_addr inner) (openSubscription s)) then
      (i <- contexts_indexOf (inner_context inner) ;; closeWindow i) s
    else (Normal tt, s).

(** The callbacks of [OuterSubscriber] that an [InnerSubscriber] drives. *)
Record OuterSubscriber := mkOuter {
  parent_notifyNext : Tag -> Any -> M unit;
  parent_notifyError : Any -> M unit;
  parent_notifyComplete : InnerSubscriber -> M unit
}.

(** Modelled from the spec: the [InnerSubscriber] created by the
    multiplexed-subscribe helper, which is not part of the file.  It routes
    every notification to the coordinator, tagged with [outerValue]; after
    an [onError] or an [onComplete] it is stopped and its handle is closed,
    and it delivers nothing more. *)
Fixpoint InnerSubscriber_deliver (parent : OuterSubscriber) (outerValue : Tag)
         (inner : Addr) (result : Producer) : M bool :=
  match result with
  | [] => ret false
  | OnNext value :: rest =>
      parent_notifyNext parent outerValue value ;;
      InnerSubscriber_deliver parent outerValue inner rest
  | OnError err :: _ =>
      parent_notifyError parent err ;;
      ret true
  | OnComplete :: _ =>
      parent_notifyComplete parent (mkInner inner false None) ;;
      ret true
  end.

(** Modelled from the spec: [subscribeToResult(this, result, outerValue)].
    The handle it returns reports [closed] when the producer terminated
    during the subscribe call itself. *)
Definition subscribeToResult (parent : OuterSubscriber) (result : Producer)
           (outerValue : Tag) : M InnerSubscriber :=
  inner <- alloc ;;
  is_closed <- InnerSubscriber_deliver parent outerValue inner result ;;
  ret (mkInner inner is_closed None).

(** [notifyNext(outerValue, innerValue, outerIndex, innerIndex, innerSub)];
    the last three arguments are not used by the body.  [this] is the
    receiver that [subscribeToResult(this, closingNotifier, context)] calls
    back. *)
Definition notifyNext_on (this : OuterSubscriber)
           (outerValue : Tag) (innerValue : Any) : M unit :=
  match outerValue with
  | TagOpenings =>
      closingSelector <- get_closingSelector ;;
      match closingSelector innerValue with
      | Throws e => error e
      | Returns closingNotifier =>
          w <- new_Subject ;;
          sub <- new_Subscription ;;
          let c := mkContext w sub in
          contexts_push c ;;
          innerSubscription <- subscribeToResult this closingNotifier (TagContext c) ;;
          (if inner_closed innerSubscription then
             len <- contexts_length ;;
             closeWindow (len - 1)%Z
           else
             (* innerSubscription.context = context; *)
             Subscription_add sub (inner_addr innerSubscription)) ;;
          destination_next w
      end
  | TagContext c =>
      i <- contexts_indexOf (Some c) ;;
      closeWindow i
  end.

(** A closing notifier is always subscribed with a context as its tag, so
    the calls it makes on the coordinator never reach the opening branch:
    the receiver seen from inside [subscribeToResult] needs no further
    [subscribeToResult] of its own. *)
Definition this_from_inner : OuterSubscriber :=
  mkOuter
    (notifyNext_on (mkOuter (fun _ _ => ret tt) notifyError notifyComplete))
    notifyError
    notifyComplete.

Definition this_ : OuterSubscriber :=
  mkOuter (notifyNext_on this_from_inner) notifyError notifyComplete.

Definition notifyNext : Tag -> Any -> M unit := parent_notifyNext this_.

(** ** Runs of a constructed coordinator *)

(** What the environment can do to the coordinator once the constructor
    has returned: the source and the downstream consumer call the public
    methods; the openings' inner subscriber delivers while it is not
    stopped; notifications of closing notifiers may arrive for any context
    at any time, which covers whatever the inner subscribers of the closing
    notifiers let through.  What the openings send while the constructor is
    still inside [subscribeToResult(this, openings, openings)] is no input
    of this kind: it is delivered by [WindowToggleSubscriber_new] below. *)
Inductive Input :=
| SourceNext (value : T)
| SourceError (err : Any)
| SourceComplete
| Unsubscribe
| OpeningsNext (value : Any)
| OpeningsError (err : Any)
| OpeningsComplete
| ClosingNext (c : WindowContext) (value : Any)
| ClosingError (err : Any)
| ClosingComplete (inner : InnerSubscriber).

(** Modelled from the spec: the openings' [InnerSubscriber] of a
    constructed coordinator, which is not part of the file.  A producer
    stops calling its consumer after cancellation or after a terminal
    notification: the inner subscriber is stopped by its own [onError] or
    [onComplete], or by the teardown of the coordinator, of which its
    handle is a child from [this.add(this.openSubscription = ...)] on; once
    stopped it passes nothing on.  The guard is the inner subscriber's:
    [notifyNext] and [notifyComplete] have none of their own, and before
    [this.add] has run, that is, during the subscribe call of the
    constructor, nothing stops the openings when the coordinator
    terminates. *)
Definition openings_InnerSubscriber (deliver : M unit) : M unit :=
  fun s => if openingsStopped s then (Normal tt, s) else deliver s.

(** One input handled by a constructed coordinator. *)
Definition step (i : Input) : M unit :=
  match i with
  | SourceNext value => next value
  | SourceError err => error err
  | SourceComplete => complete
  | Unsubscribe => unsubscribe
  | OpeningsNext value =>
      openings_InnerSubscriber (notifyNext TagOpenings value)
  | OpeningsError err =>
      openings_InnerSubscriber (set_openingsStopped true ;; notifyError err)
  | OpeningsComplete =>
      openings_InnerSubscriber
        (fun s => (set_openingsStopped true ;;
                   notifyComplete (mkInner (openSubscription s) false None)) s)
  | ClosingNext c value => notifyNext (TagContext c) value
  | ClosingError err => notifyError err
  | ClosingComplete inner => notifyComplete inner
  end.

(** A fault thrown out of a callback unwinds into the caller; the
    coordinator object lives on in the state it was left in. *)
Definition exec (s : State) (i : Input) : State := snd (step i s).

Definition run (s : State) (inputs : list Input) : State := fold_left exec inputs s.

(** The coordinator as the constructor leaves it when the openings send
    nothing during the subscribe call: the openings subscription is the
    first object allocated, and its handle is composed. *)
Definition initial (closingSelector : Any -> SelectorResult) : State :=
  mkState (Some []) 0 closingSelector false false false 1 [].

(** ** Observing a sink through the trace *)

(** A call received by the sink [w]. *)
Definition sink_call (w : Addr) (ev : Event) : bool :=
  match ev with
  | WindowNext w' _ | WindowError w' _ | WindowComplete w' | WindowUnsubscribe w' =>
      Nat.eqb w' w
  | _ => false
  end.

(** A call after which the sink [w] is finished: [complete], [unsubscribe]
    (cancel) or [error]. *)
Definition sink_terminal (w : Addr) (ev : Event) : bool :=
  match ev with
  | WindowError w' _ | WindowComplete w' | WindowUnsubscribe w' => Nat.eqb w' w
  | _ => false
  end.

(** The life of one sink, read off the trace. *)
Inductive SinkState := Fresh | Open | Terminated | Violated.

Definition sink_step (w : Addr) (st : SinkState) (ev : Event) : SinkState :=
  match ev with
  | NewSubject w' =>
      if Nat.eqb w' w then match st with Fresh => Open | _ => Violated end else st
  | WindowNext w' _ =>
      if Nat.eqb w' w then match st with Open => Open | _ => Violated end else st
  | WindowError w' _ | WindowComplete w' | WindowUnsubscribe w' =>
      if Nat.eqb w' w then match st with Open => Terminated | _ => Violated end else st
  | _ => st
  end.

Definition sink_state (w : Addr) (tr : list Event) : SinkState :=
  fold_left (sink_step w) tr Fresh.


(** Events by which downstream is notified. *)
Definition downstream_event (ev : Event) : bool :=
  match ev with
  | DestinationNext _ | DestinationError _ | DestinationComplete => true
  | _ => false
  end.

(** Events that create a sink or a handle, or deliver a window. *)
Definition opens_window (ev : Event) : bool :=
  match ev with
  | NewSubject _ | NewSubscription _ | DestinationNext _ => true
  | _ => false
  end.

(** The coordinator after a terminal transition that appended [evs]. *)
Definition terminated_with (evs : list Event) (s : State) : State :=
  mkState None (openSubscription s) (closingSelector s) true true true
          (next_addr s) (trace s ++ evs).

Definition error_calls (err : Any) (c : WindowContext) : list Event :=
  [WindowError (window c) err; SubscriptionUnsubscribe (subscription c)].

Definition complete_calls (c : WindowContext) : list Event :=
  [WindowComplete (window c); SubscriptionUnsubscribe (subscription c)].

Definition cancel_calls (c : WindowContext) : list Event :=
  [WindowUnsubscribe (window c); SubscriptionUnsubscribe (subscription c)].

(** ** Notions used by the proofs *)

(** A coordinator after any terminal transition. *)
Definition terminated (s : State) : Prop :=
  contexts s = None /\ isStopped s = true /\ closed s = true /\ openingsStopped s = true.

(** What the two calls made on one context at teardown do to the sink [w]. *)
Definition terminal_step (w : Addr) (c : WindowContext) (st : SinkState) : SinkState :=
  if Nat.eqb (window c) w
  then match st with Open => Terminated | _ => Violated end
  else st.

(** The two calls of a teardown loop, whatever the terminal call is. *)
Definition TerminalCalls (f : WindowContext -> list Event) : Prop :=
  forall c w st, fold_left (sink_step w) (f c) st = terminal_step w c st.

(** Events that concern no sink at all. *)
Definition sink_neutral (ev : Event) : bool :=
  match ev with
  | NewSubject _ | WindowNext _ _ | WindowError _ _ | WindowComplete _
  | WindowUnsubscribe _ => false
  | _ => true
  end.

(** The invariant kept by every run of the coordinator: the flags agree,
    the sinks in the array are pairwise distinct, a sink is in the array
    exactly while it is open, and addresses not yet allocated are unused. *)
Record Inv (s : State) : Prop := mkInv {
  inv_closed : closed s = true -> isStopped s = true;
  inv_null : contexts s = None -> openingsStopped s = true;
  inv_nodup : NoDup (map window (active s));
  inv_open : forall w, In w (map window (active s)) -> sink_state w (trace s) = Open;
  inv_rest : forall w, ~ In w (map window (active s)) ->
                       sink_state w (trace s) = Fresh \/ sink_state w (trace s) = Terminated;
  inv_fresh : forall w, next_addr s <= w -> sink_state w (trace s) = Fresh
}.

(** A method is sound when it keeps the invariant and only ever appends
    to the trace. *)
Definition Sound {A} (m : M A) : Prop :=
  forall s,
    (Inv s -> Inv (snd (m s))) /\
    (exists evs, trace (snd (m s)) = trace s ++ evs).

(** The coordinator once [notifyNext] has created the sink and the handle
    and pushed the new context on the array [l]. *)
Definition opened (l : list WindowContext) (s : State) : State :=
  mkState (Some (l ++ [mkContext (next_addr s) (S (next_addr s))]))
          (openSubscription s) (closingSelector s)
          (isStopped s) (closed s) (openingsStopped s)
          (S (S (next_addr s)))
          (trace s ++ [NewSubject (next_addr s); NewSubscription (S (next_addr s))]).

(** What [notifyNext] still does after the push. *)
Definition after_push (closingNotifier : Producer) (w sub : Addr) : M unit :=
  innerSubscription <-
    subscribeToResult this_from_inner closingNotifier (TagContext (mkContext w sub)) ;;
  (if inner_closed innerSubscription then
     len <- contexts_length ;;
     closeWindow (len - 1)%Z
   else
     Subscription_add sub (inner_addr innerSubscription)) ;;
  destination_next w.

(** ** Further notions: the downstream contract and good order *)

(** The two notifications after which downstream must hear nothing more. *)
Definition downstream_terminal (ev : Event) : bool :=
  match ev with
  | DestinationError _ | DestinationComplete => true
  | _ => false
  end.

(** No downstream event follows a downstream terminal. *)
Fixpoint downstream_ok (tr : list Event) : bool :=
  match tr with
  | [] => true
  | ev :: rest =>
      if downstream_terminal ev
      then forallb (fun e => negb (downstream_event e)) rest
      else downstream_ok rest
  end.

(** A notification that is a value. *)
Definition is_value (n : Notification) : bool :=
  match n with
  | OnNext _ => true
  | _ => false
  end.

(** Pre- and postconditions of a method: [Q] after a normal return, [E]
    after a fault. *)
Definition triple {A} (P : State -> Prop) (m : M A)
           (Q : A -> State -> Prop) (E : State -> Prop) : Prop :=
  forall s, P s ->
    match m s with
    | (Normal a, s') => Q a s'
    | (Throw _, s') => E s'
    end.

(** Good order of a coordinator between two inputs: the three ways of being
    finished coincide, downstream has been notified lawfully, the array is
    in order of creation, and a sink and its handle go together. *)
Record Orderly (s : State) : Prop := mkOrderly {
  ord_stopped : isStopped s = true <-> contexts s = None;
  ord_closed : closed s = true <-> contexts s = None;
  ord_openings : contexts s = None -> openingsStopped s = true;
  ord_downstream : downstream_ok (trace s) = true;
  ord_live : contexts s <> None -> existsb downstream_terminal (trace s) = false;
  ord_handle : forall c, In c (active s) -> subscription c = S (window c);
  ord_bound : forall c, In c (active s) -> window c < next_addr s;
  ord_sorted : StronglySorted lt (map window (active s));
  ord_created : forall w, In (NewSubject w) (trace s) ->
                          In (NewSubscription (S w)) (trace s);
  ord_cancelled : forall w ev, In ev (trace s) -> sink_terminal w ev = true ->
                               In (SubscriptionUnsubscribe (S w)) (trace s)
}.


(** The two calls made on each context by a terminal loop. *)
Definition TeardownCalls (f : WindowContext -> list Event) : Prop :=
  forall c, exists t,
    f c = [t; SubscriptionUnsubscribe (subscription c)] /\
    downstream_event t = false /\
    (forall w, t <> NewSubject w) /\
    (forall w, sink_terminal w t = true -> w = window c).

(** A coordinator in good order whose array is not [null]. *)
Definition Live (s : State) : Prop := Orderly s /\ contexts s <> None.

(** A live coordinator whose openings are still delivering: nothing is
    stopped, the selector is [sel], and the openings subscription [o] was
    allocated before anything else. *)
Definition Steady (sel : Any -> SelectorResult) (o : Addr) (s : State) : Prop :=
  contexts s <> None /\ isStopped s = false /\ closed s = false /\
  openingsStopped s = false /\ closingSelector s = sel /\
  openSubscription s = o /\ o < next_addr s.

(** ** Construction of the coordinator and subscription of the operator *)

(** [this.openSubscription = ...] *)
Definition set_openSubscription (a : Addr) : M unit :=
  fun s =>
    (Normal tt,
     mkState (contexts s) a (closingSelector s) (isStopped s) (closed s)
             (openingsStopped s) (next_addr s) (trace s)).

(** [notifyComplete] as it runs while the constructor is still inside
    [subscribeToResult(this, openings, openings)]: [this.openSubscription]
    is not assigned yet, so [inner !== this.openSubscription] holds for
    every inner subscriber. *)
Definition notifyComplete_constructing (inner : InnerSubscriber) : M unit :=
  i <- contexts_indexOf (inner_context inner) ;;
  closeWindow i.

(** The coordinator under construction, as the receiver of its inner
    subscribers: from inside the subscription of a closing notifier, and
    from inside the subscription of the openings. *)
Definition constructing_from_inner : OuterSubscriber :=
  mkOuter
    (notifyNext_on
       (mkOuter (fun _ _ => ret tt) notifyError notifyComplete_constructing))
    notifyError
    notifyComplete_constructing.

Definition constructing : OuterSubscriber :=
  mkOuter (notifyNext_on constructing_from_inner) notifyError
          notifyComplete_constructing.

(** Modelled from the spec: [this.add(child)] of the base class, for the
    openings subscription: the handle is composed into the coordinator's;
    a child added to a parent that is already closed is cancelled at once,
    and a child that came back closed stays closed. *)
Definition add_openSubscription (child : InnerSubscriber) : M unit :=
  fun s => (Normal tt, with_openingsStopped (inner_closed child || closed s) s).

(** [constructor(destination, openings, closingSelector)]: the fields are
    initialised ([contexts = []] and the parameter properties), then
    [this.add(this.openSubscription = subscribeToResult(this, openings, openings))].
    The openings are seen through what they send during the subscribe
    call.  No address is allocated before the call, and
    [openSubscription] is read by nothing until it is assigned. *)
Definition WindowToggleSubscriber_new (closingSelector : Any -> SelectorResult)
           (openings : Producer) : Completion unit * State :=
  (innerSubscription <- subscribeToResult constructing openings TagOpenings ;;
   set_openSubscription (inner_addr innerSubscription) ;;
   add_openSubscription innerSubscription)
    (mkState (Some []) 0 closingSelector false false false 0 []).

(** What the source sends during the subscribe call. *)
Inductive SourceNotification :=
| SourceSendsNext (value : T)
| SourceSendsError (err : Any)
| SourceSendsComplete.

(** Modelled from the spec: [source.subscribe(subscriber)] with the
    coordinator as subscriber; the source calls the public [next], [error]
    and [complete], and sends nothing after a terminal notification. *)
Fixpoint source_subscribe (source : list SourceNotification) : M unit :=
  match source with
  | [] => ret tt
  | SourceSendsNext value :: rest => next value ;; source_subscribe rest
  | SourceSendsError err :: _ => error err
  | SourceSendsComplete :: _ => complete
  end.

(** [class WindowToggleOperator]: its two constructor properties. *)
Record WindowToggleOperator := mkOperator {
  operator_openings : Producer;
  operator_closingSelector : Any -> SelectorResult
}.

(** [call(subscriber, source)]:
    [source.subscribe(new WindowToggleSubscriber(subscriber, this.openings, this.closingSelector))].
    The argument is evaluated first: the coordinator is constructed, and
    with it the openings subscribed, before the source is. *)
Definition call (this : WindowToggleOperator) (source : list SourceNotification)
  : Completion unit * State :=
  match WindowToggleSubscriber_new (operator_closingSelector this)
                                   (operator_openings this) with
  | (Normal _, s) => source_subscribe source s
  | (Throw e, s) => (Throw e, s)
  end.

(** [windowToggle(openings, closingSelector)]: the operator that
    [source.lift] installs. *)
Definition windowToggle (openings : Producer)
           (closingSelector : Any -> SelectorResult) : WindowToggleOperator :=
  mkOperator openings closingSelector.

(** The inputs that stand for what the openings, or the source, send. *)
Fixpoint openings_inputs (openings : Producer) : list Input :=
  match openings with
  | [] => []
  | OnNext value :: rest => OpeningsNext value :: openings_inputs rest
  | OnError err :: _ => [OpeningsError err]
  | OnComplete :: _ => [OpeningsComplete]
  end.

Fixpoint source_inputs (source : list SourceNotification) : list Input :=
  match source with
  | [] => []
  | SourceSendsNext value :: rest => SourceNext value :: source_inputs rest
  | SourceSendsError err :: _ => [SourceError err]
  | SourceSendsComplete :: _ => [SourceComplete]
  end.

(** A notification that is a failure. *)
Definition is_error (n : Notification) : bool :=
  match n with
  | OnError _ => true
  | _ => false
  end.

(** Openings under which the coordinator stays live while they send
    values: for each value the selector returns a closing notifier, and
    that notifier does not fail during its subscribe call. *)
Definition calm_openings (closingSelector : Any -> SelectorResult)
           (openings : Producer) : bool :=
  forallb
    (fun n =>
       match n with
       | OnNext value =>
           match closingSelector value with
           | Returns p => forallb (fun n' => negb (is_error n')) p
           | Throws _ => false
           end
       | _ => true
       end)
    openings.


(** ** The whole life of a coordinator *)

(** A coordinator from its construction on: it is built over openings that
    send [openings] during the subscribe call of the constructor, and is
    then driven by [inputs].  When the constructor ends in a fault the
    object it was building is followed all the same: the inner subscribers
    of its closing notifiers hold a reference to it. *)
Definition lifetime (closingSelector : Any -> SelectorResult)
           (openings : Producer) (inputs : list Input) : State :=
  run (snd (WindowToggleSubscriber_new closingSelector openings)) inputs.

(** The coordinator after the opening branch of [notifyNext] has been
    entered with the array [null]: the sink and the handle are created,
    then [this.contexts.push(context)] is a [TypeError]. *)
Definition orphaned (s : State) : State :=
  mkState (contexts s) (openSubscription s) (closingSelector s)
          (isStopped s) (closed s) (openingsStopped s)
          (S (S (next_addr s)))
          (trace s ++ [NewSubject (next_addr s); NewSubscription (S (next_addr s))]).

(** A coordinator whose constructor is still inside the subscription of
    the openings: the selector is [sel], the openings' inner subscriber
    [o] was allocated before anything else, and as long as the array is
    not [null] nothing has stopped the openings. *)
Definition Building (sel : Any -> SelectorResult) (o : Addr) (s : State) : Prop :=
  closingSelector s = sel /\ openSubscription s = o /\ o < next_addr s /\
  (contexts s <> None -> openingsStopped s = false).


(** * Proofs *)

(** ** Arrays *)

Lemma WindowContext_eqb_eq a b : WindowContext_eqb a b = true <-> a = b.
Proof.
  destruct a as [w1 s1], b as [w2 s2]; unfold WindowContext_eqb; simpl.
  rewrite andb_true_iff, !Nat.eqb_eq.
  split.
  - intros [-> ->]; reflexivity.
  - intros H; inversion H; auto.
Qed.

Lemma WindowContext_eqb_refl a : WindowContext_eqb a a = true.
Proof. apply WindowContext_eqb_eq; reflexivity. Qed.

Lemma array_get_middle {A} (l1 : list A) c l2 :
  array_get (l1 ++ c :: l2) (Z.of_nat (length l1)) = Some c.
Proof.
  unfold array_get.
  destruct (Z.ltb_spec (Z.of_nat (length l1)) 0); [lia|].
  rewrite Nat2Z.id, nth_error_app2 by lia.
  rewrite Nat.sub_diag; reflexivity.
Qed.

Lemma splice1_middle {A} (l1 : list A) c l2 :
  splice1 (l1 ++ c :: l2) (Z.of_nat (length l1)) = l1 ++ l2.
Proof.
  unfold splice1. rewrite Nat2Z.id.
  induction l1 as [|a l1 IH]; simpl.
  - reflexivity.
  - f_equal; exact IH.
Qed.

Lemma array_split {A} (l : list A) (index : Z) :
  (0 <= index < Z.of_nat (length l))%Z ->
  exists l1 c l2, l = l1 ++ c :: l2 /\ Z.of_nat (length l1) = index.
Proof.
  intros H.
  destruct (nth_error l (Z.to_nat index)) as [c|] eqn:E.
  - destruct (nth_error_split _ _ E) as (l1 & l2 & -> & Hlen).
    exists l1, c, l2; split; [reflexivity | lia].
  - apply nth_error_None in E; lia.
Qed.

Lemma array_get_outside {A} (l : list A) (index : Z) :
  (index < 0 \/ Z.of_nat (length l) <= index)%Z -> array_get l index = None.
Proof.
  intros H; unfold array_get.
  destruct (Z.ltb_spec index 0); [reflexivity|].
  apply nth_error_None; lia.
Qed.

Lemma indexOf_from_spec l x i :
  (~ In x l /\ indexOf_from l x i = (-1)%Z) \/
  (exists l1 l2, l = l1 ++ x :: l2 /\ ~ In x l1 /\
                 indexOf_from l x i = (i + Z.of_nat (length l1))%Z).
Proof.
  revert i; induction l as [|y l IH]; intros i; simpl.
  - left; auto.
  - destruct (WindowContext_eqb y x) eqn:E.
    + apply WindowContext_eqb_eq in E; subst y.
      right; exists [], l; simpl; repeat split; auto; lia.
    + assert (y <> x) as Hne
          by (intros ->; rewrite WindowContext_eqb_refl in E; discriminate).
      destruct (IH (i + 1)%Z) as [[Hn Hi] | (l1 & l2 & -> & Hn & Hi)].
      * left; split; [intros [?|?]; auto | exact Hi].
      * right; exists (y :: l1), l2; simpl; repeat split; auto.
        -- intros [?|?]; auto.
        -- rewrite Hi; lia.
Qed.

(** The index handed to [closeWindow] at each of its call sites is [-1] or
    lies inside the array. *)
Lemma indexOf_range l x :
  indexOf l x = (-1)%Z \/ (0 <= indexOf l x < Z.of_nat (length l))%Z.
Proof.
  destruct x as [c|]; simpl; [|left; reflexivity].
  destruct (indexOf_from_spec l c 0) as [[_ H] | (l1 & l2 & -> & _ & H)].
  - left; exact H.
  - right; rewrite H, length_app; simpl; lia.
Qed.

Lemma last_index_range (l : list WindowContext) :
  (Z.of_nat (length l) - 1 = -1 \/
   0 <= Z.of_nat (length l) - 1 < Z.of_nat (length l))%Z.
Proof. lia. Qed.

(** ** States and loops *)

Lemma with_trace_same (s : State) : with_trace (trace s) s = s.
Proof. destruct s; reflexivity. Qed.

Lemma with_trace_nil (s : State) : with_trace (trace s ++ []) s = s.
Proof. rewrite app_nil_r; apply with_trace_same. Qed.

Lemma forEach_emit2 (f g : WindowContext -> Event) l s :
  forEach l (fun c => emit (f c) ;; emit (g c)) s =
  (Normal tt, with_trace (trace s ++ flat_map (fun c => [f c; g c]) l) s).
Proof.
  revert s; induction l as [|c l IH]; intros s; simpl.
  - unfold ret; rewrite with_trace_nil; reflexivity.
  - unfold bind at 1; unfold bind at 1; unfold emit at 1 2; simpl.
    rewrite IH; simpl.
    unfold with_trace; simpl.
    rewrite <- !app_assoc; reflexivity.
Qed.

Lemma forEach_emit1 (f : WindowContext -> Event) l s :
  forEach l (fun c => emit (f c)) s =
  (Normal tt, with_trace (trace s ++ map f l) s).
Proof.
  revert s; induction l as [|c l IH]; intros s; simpl.
  - unfold ret; rewrite with_trace_nil; reflexivity.
  - unfold bind at 1; unfold emit at 1; simpl.
    rewrite IH; simpl.
    unfold with_trace; simpl.
    rewrite <- !app_assoc; reflexivity.
Qed.

(** ** The methods, one by one *)

Ltac state_eq :=
  unfold terminated_with, with_trace, with_contexts, with_isStopped, with_closed,
    with_openingsStopped, with_next_addr; simpl;
  rewrite <- ?app_assoc; simpl; try reflexivity.

Lemma _next_eq value s :
  _next value s =
  (Normal tt,
   with_trace (trace s ++ map (fun c => WindowNext (window c) value) (active s)) s).
Proof.
  unfold _next, bind, get_contexts, active; simpl.
  destruct (contexts s) as [l|].
  - unfold Subject_next; apply forEach_emit1.
  - unfold ret; rewrite with_trace_nil; reflexivity.
Qed.

Lemma _unsubscribe_eq s :
  _unsubscribe s =
  (Normal tt,
   with_trace (trace s ++ flat_map cancel_calls (active s)) (with_contexts None s)).
Proof.
  unfold _unsubscribe, Subject_unsubscribe, Subscription_unsubscribe.
  unfold bind at 1; unfold get_contexts at 1.
  unfold bind at 1; unfold set_contexts at 1.
  unfold active.
  destruct (contexts s) as [l|].
  - rewrite forEach_emit2; reflexivity.
  - unfold ret; simpl; rewrite app_nil_r; reflexivity.
Qed.

Lemma unsubscribe_closed s : closed s = true -> unsubscribe s = (Normal tt, s).
Proof. intros H; unfold unsubscribe; rewrite H; reflexivity. Qed.

Lemma unsubscribe_eq s :
  closed s = false ->
  unsubscribe s =
  (Normal tt, terminated_with (flat_map cancel_calls (active s) ++ [TeardownChildren]) s).
Proof.
  intros H; unfold unsubscribe; rewrite H.
  unfold bind at 1; unfold set_isStopped at 1.
  unfold bind at 1; unfold set_closed at 1.
  unfold bind at 1; rewrite _unsubscribe_eq.
  unfold bind, emit, set_openingsStopped, active; simpl.
  state_eq.
Qed.

(** The three terminal loops share one shape: the array is captured, the
    field is set to [null], and only then are the captured contexts
    visited. *)
Lemma terminal_loop_eq (f g : WindowContext -> Event) (k : M unit) s :
  (cs <- get_contexts ;;
   set_contexts None ;;
   match cs with
   | Some cs => forEach cs (fun c => emit (f c) ;; emit (g c))
   | None => ret tt
   end ;;
   k) s =
  k (with_trace (trace s ++ flat_map (fun c => [f c; g c]) (active s))
                (with_contexts None s)).
Proof.
  unfold bind at 1; unfold get_contexts at 1.
  unfold bind at 1; unfold set_contexts at 1.
  unfold bind at 1; unfold active.
  destruct (contexts s) as [l|].
  - rewrite forEach_emit2; reflexivity.
  - unfold ret; simpl; rewrite app_nil_r; reflexivity.
Qed.

Lemma super__error_eq err s :
  closed s = false -> contexts s = None ->
  super__error err s =
  (Normal tt, terminated_with [DestinationError err; TeardownChildren] s).
Proof.
  intros Hc Hn; unfold super__error, destination_error.
  unfold bind at 1; unfold emit at 1.
  rewrite unsubscribe_eq by exact Hc.
  unfold active; simpl; rewrite Hn; simpl.
  state_eq.
Qed.

Lemma super__complete_eq s :
  closed s = false -> contexts s = None ->
  super__complete s =
  (Normal tt, terminated_with [DestinationComplete; TeardownChildren] s).
Proof.
  intros Hc Hn; unfold super__complete, destination_complete.
  unfold bind at 1; unfold emit at 1.
  rewrite unsubscribe_eq by exact Hc.
  unfold active; simpl; rewrite Hn; simpl.
  state_eq.
Qed.

Lemma _error_eq err s :
  closed s = false ->
  _error err s =
  (Normal tt,
   terminated_with
     (flat_map (error_calls err) (active s) ++ [DestinationError err; TeardownChildren])
     (with_isStopped true s)).
Proof.
  intros Hc; unfold _error, Subject_error, Subscription_unsubscribe.
  rewrite terminal_loop_eq.
  rewrite super__error_eq by (simpl; auto).
  state_eq.
Qed.

Lemma _complete_eq s :
  closed s = false ->
  _complete s =
  (Normal tt,
   terminated_with
     (flat_map complete_calls (active s) ++ [DestinationComplete; TeardownChildren])
     (with_isStopped true s)).
Proof.
  intros Hc; unfold _complete, Subject_complete, Subscription_unsubscribe.
  rewrite terminal_loop_eq.
  rewrite super__complete_eq by (simpl; auto).
  state_eq.
Qed.

Lemma error_stopped err s : isStopped s = true -> error err s = (Normal tt, s).
Proof. intros H; unfold error; rewrite H; reflexivity. Qed.

Lemma error_eq err s :
  isStopped s = false -> closed s = false ->
  error err s =
  (Normal tt,
   terminated_with
     (flat_map (error_calls err) (active s) ++ [DestinationError err; TeardownChildren])
     s).
Proof.
  intros Hs Hc; unfold error; rewrite Hs.
  unfold bind, set_isStopped.
  rewrite _error_eq by (simpl; auto).
  state_eq.
Qed.

Lemma complete_stopped s : isStopped s = true -> complete s = (Normal tt, s).
Proof. intros H; unfold complete; rewrite H; reflexivity. Qed.

Lemma complete_eq s :
  isStopped s = false -> closed s = false ->
  complete s =
  (Normal tt,
   terminated_with
     (flat_map complete_calls (active s) ++ [DestinationComplete; TeardownChildren])
     s).
Proof.
  intros Hs Hc; unfold complete; rewrite Hs.
  unfold bind, set_isStopped.
  rewrite _complete_eq by (simpl; auto).
  state_eq.
Qed.

Lemma closeWindow_minus_one s : closeWindow (-1) s = (Normal tt, s).
Proof. reflexivity. Qed.

Lemma closeWindow_null index s :
  contexts s = None -> index <> (-1)%Z -> closeWindow index s = (Throw TypeError, s).
Proof.
  intros Hn Hi; unfold closeWindow.
  destruct (Z.eqb_spec index (-1)); [contradiction|].
  unfold bind, get_contexts; rewrite Hn; reflexivity.
Qed.

Lemma closeWindow_outside index l s :
  contexts s = Some l -> index <> (-1)%Z ->
  (index < 0 \/ Z.of_nat (length l) <= index)%Z ->
  closeWindow index s = (Throw TypeError, s).
Proof.
  intros Hl Hi Hr; unfold closeWindow.
  destruct (Z.eqb_spec index (-1)); [contradiction|].
  unfold bind, get_contexts; rewrite Hl.
  rewrite array_get_outside by exact Hr; reflexivity.
Qed.

Lemma closeWindow_middle l1 c l2 s :
  contexts s = Some (l1 ++ c :: l2) ->
  closeWindow (Z.of_nat (length l1)) s =
  (Normal tt,
   with_trace (trace s ++ complete_calls c) (with_contexts (Some (l1 ++ l2)) s)).
Proof.
  intros Hl; unfold closeWindow.
  destruct (Z.eqb_spec (Z.of_nat (length l1)) (-1)); [lia|].
  unfold bind at 1; unfold get_contexts at 1; rewrite Hl.
  rewrite array_get_middle, splice1_middle.
  unfold bind, set_contexts, Subject_complete, Subscription_unsubscribe, emit; simpl.
  state_eq.
Qed.

Lemma super__error_closed err s :
  closed s = true ->
  super__error err s = (Normal tt, with_trace (trace s ++ [DestinationError err]) s).
Proof.
  intros Hc; unfold super__error, destination_error.
  unfold bind at 1; unfold emit at 1.
  rewrite unsubscribe_closed by exact Hc; reflexivity.
Qed.

Lemma _error_closed err s :
  closed s = true ->
  _error err s =
  (Normal tt,
   with_trace (trace s ++ flat_map (error_calls err) (active s) ++ [DestinationError err])
              (with_contexts None s)).
Proof.
  intros Hc; unfold _error, Subject_error, Subscription_unsubscribe.
  rewrite terminal_loop_eq.
  rewrite super__error_closed by (simpl; auto).
  state_eq.
Qed.

Lemma super__complete_closed s :
  closed s = true ->
  super__complete s = (Normal tt, with_trace (trace s ++ [DestinationComplete]) s).
Proof.
  intros Hc; unfold super__complete, destination_complete.
  unfold bind at 1; unfold emit at 1.
  rewrite unsubscribe_closed by exact Hc; reflexivity.
Qed.

Lemma _complete_closed s :
  closed s = true ->
  _complete s =
  (Normal tt,
   with_trace (trace s ++ flat_map complete_calls (active s) ++ [DestinationComplete])
              (with_contexts None s)).
Proof.
  intros Hc; unfold _complete, Subject_complete, Subscription_unsubscribe.
  rewrite terminal_loop_eq.
  rewrite super__complete_closed by (simpl; auto).
  state_eq.
Qed.

Lemma no_opening_in_error_calls err l :
  forallb (fun ev => negb (opens_window ev)) (flat_map (error_calls err) l) = true.
Proof. induction l as [|c l IH]; simpl; auto. Qed.

(** Whatever the state, [error] returns normally, allocates nothing, adds
    no context and appends neither a creation nor a delivery to the trace. *)
Lemma error_shape err s :
  exists s',
    error err s = (Normal tt, s') /\
    next_addr s' = next_addr s /\
    (exists evs, trace s' = trace s ++ evs /\
                 forallb (fun ev => negb (opens_window ev)) evs = true) /\
    (forall c, In c (active s') -> In c (active s)).
Proof.
  destruct (isStopped s) eqn:Hs.
  - exists s; rewrite error_stopped by exact Hs.
    repeat split; auto.
    exists []; rewrite app_nil_r; auto.
  - unfold error; rewrite Hs.
    unfold bind, set_isStopped.
    destruct (closed s) eqn:Hc.
    + rewrite _error_closed by (simpl; auto).
      eexists; split; [reflexivity|]; simpl.
      repeat split; auto.
      * eexists; split; [reflexivity|].
        rewrite forallb_app, no_opening_in_error_calls; reflexivity.
      * unfold active; simpl; contradiction.
    + rewrite _error_eq by (simpl; auto).
      eexists; split; [reflexivity|]; simpl.
      repeat split; auto.
      * eexists; split; [reflexivity|].
        rewrite forallb_app, no_opening_in_error_calls; reflexivity.
      * unfold active; simpl; contradiction.
Qed.

(** Closing a window found by identity: [closeWindow(contexts.indexOf(x))]. *)
Lemma close_by_identity_null x s :
  contexts s = None ->
  (i <- contexts_indexOf x ;; closeWindow i) s = (Throw TypeError, s).
Proof.
  intros Hn; unfold contexts_indexOf, bind, get_contexts; rewrite Hn; reflexivity.
Qed.

Lemma close_by_identity_absent x l s :
  contexts s = Some l ->
  (forall c, x = Some c -> ~ In c l) ->
  (i <- contexts_indexOf x ;; closeWindow i) s = (Normal tt, s).
Proof.
  intros Hl Hx; unfold contexts_indexOf, bind, get_contexts; rewrite Hl; unfold ret.
  destruct x as [c|]; simpl; [|reflexivity].
  destruct (indexOf_from_spec l c 0) as [[_ H] | (l1 & l2 & -> & _ & _)].
  - rewrite H; reflexivity.
  - exfalso; apply (Hx c eq_refl), in_elt.
Qed.

Lemma close_by_identity_present c l1 l2 s :
  contexts s = Some (l1 ++ c :: l2) -> ~ In c l1 ->
  (i <- contexts_indexOf (Some c) ;; closeWindow i) s =
  (Normal tt,
   with_trace (trace s ++ complete_calls c) (with_contexts (Some (l1 ++ l2)) s)).
Proof.
  intros Hl Hn; unfold bind at 1; unfold contexts_indexOf, bind at 1, get_contexts.
  rewrite Hl; unfold ret; simpl indexOf.
  destruct (indexOf_from_spec (l1 ++ c :: l2) c 0)
    as [[Hno _] | (k1 & k2 & Hsplit & Hk & Hi)].
  - exfalso; apply Hno, in_elt.
  - assert (k1 = l1) as ->.
    { clear - Hsplit Hk Hn.
      revert k1 Hsplit Hk; induction l1 as [|a l1 IH]; intros [|b k1] Hsplit Hk.
      - reflexivity.
      - simpl in *; inversion Hsplit; subst; exfalso; apply Hk; left; reflexivity.
      - simpl in *; inversion Hsplit; subst; exfalso; apply Hn; left; reflexivity.
      - simpl in *; inversion Hsplit; subst; f_equal; apply IH; auto. }
    rewrite Hi; simpl.
    apply closeWindow_middle; exact Hl.
Qed.

Lemma notifyNext_closing c value s :
  notifyNext (TagContext c) value s =
  (i <- contexts_indexOf (Some c) ;; closeWindow i) s.
Proof. reflexivity. Qed.

(** Seen from inside [subscribeToResult] the receiver behaves as the
    coordinator itself: a closing notifier calls back with a context tag. *)
Lemma this_from_inner_closing c value :
  parent_notifyNext this_from_inner (TagContext c) value = notifyNext (TagContext c) value.
Proof. reflexivity. Qed.

Lemma notifyComplete_openings inner s :
  inner_addr inner = openSubscription s -> notifyComplete inner s = (Normal tt, s).
Proof.
  intros H; unfold notifyComplete; rewrite H, Nat.eqb_refl; reflexivity.
Qed.

Lemma notifyComplete_closing inner s :
  inner_addr inner <> openSubscription s ->
  notifyComplete inner s =
  (i <- contexts_indexOf (inner_context inner) ;; closeWindow i) s.
Proof.
  intros H; unfold notifyComplete.
  destruct (Nat.eqb_spec (inner_addr inner) (openSubscription s)); [contradiction|].
  reflexivity.
Qed.

(** ** Terminated coordinators *)

Lemma terminated_with_terminated evs s : terminated (terminated_with evs s).
Proof. repeat split. Qed.

Lemma exec_terminated s i : terminated s -> exec s i = s.
Proof.
  intros (Hn & Hs & Hc & Ho); unfold exec; destruct i; simpl;
    unfold openings_InnerSubscriber.
  - unfold next; rewrite Hs; reflexivity.
  - rewrite error_stopped by exact Hs; reflexivity.
  - rewrite complete_stopped by exact Hs; reflexivity.
  - rewrite unsubscribe_closed by exact Hc; reflexivity.
  - rewrite Ho; reflexivity.
  - rewrite Ho; reflexivity.
  - rewrite Ho; reflexivity.
  - rewrite notifyNext_closing, close_by_identity_null by exact Hn; reflexivity.
  - unfold notifyError; rewrite error_stopped by exact Hs; reflexivity.
  - destruct (Nat.eq_dec (inner_addr inner) (openSubscription s)) as [E|E].
    + rewrite notifyComplete_openings by exact E; reflexivity.
    + rewrite notifyComplete_closing, close_by_identity_null by assumption; reflexivity.
Qed.

Lemma run_terminated s inputs : terminated s -> run s inputs = s.
Proof.
  intros H; induction inputs as [|i inputs IH]; simpl.
  - reflexivity.
  - unfold run in *; simpl; rewrite exec_terminated by exact H; exact IH.
Qed.

(** ** The life of a sink *)

Lemma sink_state_app w tr evs :
  sink_state w (tr ++ evs) = fold_left (sink_step w) evs (sink_state w tr).
Proof. unfold sink_state; apply fold_left_app. Qed.

Lemma error_calls_terminal err : TerminalCalls (error_calls err).
Proof.
  intros c w st; unfold terminal_step; simpl.
  destruct (Nat.eqb (window c) w); reflexivity.
Qed.

Lemma complete_calls_terminal : TerminalCalls complete_calls.
Proof.
  intros c w st; unfold terminal_step; simpl.
  destruct (Nat.eqb (window c) w); reflexivity.
Qed.

Lemma cancel_calls_terminal : TerminalCalls cancel_calls.
Proof.
  intros c w st; unfold terminal_step; simpl.
  destruct (Nat.eqb (window c) w); reflexivity.
Qed.

Lemma fold_terminal_absent f l w st :
  TerminalCalls f -> ~ In w (map window l) ->
  fold_left (sink_step w) (flat_map f l) st = st.
Proof.
  intros Hf; revert st; induction l as [|c l IH]; intros st Hn; simpl.
  - reflexivity.
  - rewrite fold_left_app, Hf; unfold terminal_step.
    destruct (Nat.eqb_spec (window c) w) as [E|E].
    + exfalso; apply Hn; left; exact E.
    + apply IH; intros H; apply Hn; right; exact H.
Qed.

Lemma fold_terminal_present f l w :
  TerminalCalls f -> NoDup (map window l) -> In w (map window l) ->
  fold_left (sink_step w) (flat_map f l) Open = Terminated.
Proof.
  intros Hf; induction l as [|c l IH]; intros Hnd Hin; simpl in *.
  - contradiction.
  - inversion Hnd as [|? ? Hnotin Hnd']; subst.
    rewrite fold_left_app, Hf; unfold terminal_step.
    destruct (Nat.eqb_spec (window c) w) as [E|E].
    + subst w; apply fold_terminal_absent; assumption.
    + destruct Hin as [H|H]; [contradiction|].
      apply IH; assumption.
Qed.

Lemma fold_next_absent value l w st :
  ~ In w (map window l) ->
  fold_left (sink_step w) (map (fun c => WindowNext (window c) value) l) st = st.
Proof.
  revert st; induction l as [|c l IH]; intros st Hn; simpl.
  - reflexivity.
  - destruct (Nat.eqb_spec (window c) w) as [E|E].
    + exfalso; apply Hn; left; exact E.
    + apply IH; intros H; apply Hn; right; exact H.
Qed.

Lemma fold_next_open value l w :
  fold_left (sink_step w) (map (fun c => WindowNext (window c) value) l) Open = Open.
Proof.
  induction l as [|c l IH]; simpl.
  - reflexivity.
  - destruct (Nat.eqb (window c) w); exact IH.
Qed.

Lemma fold_neutral w evs st :
  forallb sink_neutral evs = true -> fold_left (sink_step w) evs st = st.
Proof.
  revert st; induction evs as [|ev evs IH]; intros st H; simpl in *.
  - reflexivity.
  - apply andb_true_iff in H as [H1 H2].
    rewrite IH by exact H2.
    destruct ev; simpl in *; try discriminate; reflexivity.
Qed.

(** ** The invariant of the coordinator *)

Lemma Inv_initial sel : Inv (initial sel).
Proof.
  constructor; simpl; try discriminate; auto.
  - constructor.
  - contradiction.
Qed.

(** A step that touches no sink and leaves the array alone. *)
Lemma Inv_neutral s s' evs :
  Inv s ->
  active s' = active s ->
  trace s' = trace s ++ evs -> forallb sink_neutral evs = true ->
  next_addr s <= next_addr s' ->
  (closed s' = true -> isStopped s' = true) ->
  (contexts s' = None -> openingsStopped s' = true) ->
  Inv s'.
Proof.
  intros [H1 H2 H3 H4 H5 H6] Ha Ht Hn Hle Hc Ho.
  assert (forall w, sink_state w (trace s') = sink_state w (trace s)) as Hs
      by (intros w; rewrite Ht, sink_state_app; apply fold_neutral; exact Hn).
  constructor; auto.
  - rewrite Ha; exact H3.
  - intros w; rewrite Ha, Hs; apply H4.
  - intros w; rewrite Ha, Hs; apply H5.
  - intros w Hw; rewrite Hs; apply H6; lia.
Qed.

(** Any of the three terminal transitions. *)
Lemma Inv_terminated_with f tail s :
  Inv s -> TerminalCalls f -> forallb sink_neutral tail = true ->
  Inv (terminated_with (flat_map f (active s) ++ tail) s).
Proof.
  intros [H1 H2 H3 H4 H5 H6] Hf Ht.
  assert (forall w, sink_state w (trace s ++ flat_map f (active s) ++ tail) =
                    fold_left (sink_step w) (flat_map f (active s)) (sink_state w (trace s)))
    as Hs.
  { intros w; rewrite app_assoc, sink_state_app, fold_neutral by exact Ht.
    apply sink_state_app. }
  constructor; unfold active; simpl; auto.
  - constructor.
  - contradiction.
  - intros w _; rewrite Hs.
    destruct (in_dec Nat.eq_dec w (map window (active s))) as [Hin|Hin].
    + right; rewrite (H4 w Hin); apply fold_terminal_present; assumption.
    + rewrite fold_terminal_absent by assumption; apply H5; exact Hin.
  - intros w Hw; rewrite Hs.
    assert (~ In w (map window (active s))) as Hin.
    { intros Hin; apply H4 in Hin; rewrite (H6 w Hw) in Hin; discriminate. }
    rewrite fold_terminal_absent by assumption; apply H6; exact Hw.
Qed.

Lemma Inv_fan_out value s :
  Inv s ->
  Inv (with_trace (trace s ++ map (fun c => WindowNext (window c) value) (active s)) s).
Proof.
  intros [H1 H2 H3 H4 H5 H6].
  constructor; simpl; auto.
  - intros w Hin; change (In w (map window (active s))) in Hin.
    rewrite sink_state_app, (H4 w Hin); apply fold_next_open.
  - intros w Hin; change (~ In w (map window (active s))) in Hin.
    rewrite sink_state_app, fold_next_absent by exact Hin; apply H5; exact Hin.
  - intros w Hw.
    assert (~ In w (map window (active s))) as Hin.
    { intros Hin; apply H4 in Hin; rewrite (H6 w Hw) in Hin; discriminate. }
    rewrite sink_state_app, fold_next_absent by exact Hin; apply H6; exact Hw.
Qed.

(** Close-One-Window on the context at position [length l1]. *)
Lemma Inv_close l1 c l2 s :
  Inv s -> contexts s = Some (l1 ++ c :: l2) ->
  Inv (with_trace (trace s ++ complete_calls c) (with_contexts (Some (l1 ++ l2)) s)).
Proof.
  intros [H1 H2 H3 H4 H5 H6] Hl.
  unfold active in *; rewrite Hl in *.
  rewrite map_app in H3, H4, H5; simpl in H3, H4, H5.
  destruct (NoDup_remove _ _ _ H3) as [Hnd Hnotin].
  assert (forall w, sink_state w (trace s ++ complete_calls c) =
                    terminal_step w c (sink_state w (trace s))) as Hs
      by (intros w; rewrite sink_state_app; apply complete_calls_terminal).
  constructor; unfold active; simpl; auto; try discriminate.
  - rewrite map_app; exact Hnd.
  - intros w Hin; rewrite map_app in Hin.
    rewrite Hs; unfold terminal_step.
    destruct (Nat.eqb_spec (window c) w) as [E|E].
    + subst w; contradiction.
    + apply H4. apply in_app_or in Hin as [?|?]; apply in_or_app; simpl; auto.
  - intros w Hin; rewrite map_app in Hin.
    rewrite Hs; unfold terminal_step.
    destruct (Nat.eqb_spec (window c) w) as [E|E].
    + subst w; right; rewrite H4; [reflexivity | apply in_elt].
    + apply H5; intros H; apply Hin.
      apply in_app_or in H as [?|[?|?]]; apply in_or_app; auto; contradiction.
  - intros w Hw; rewrite Hs; unfold terminal_step.
    destruct (Nat.eqb_spec (window c) w) as [E|E].
    + subst w; exfalso.
      assert (sink_state (window c) (trace s) = Open) as Ho by (apply H4, in_elt).
      rewrite (H6 _ Hw) in Ho; discriminate.
    + apply H6; exact Hw.
Qed.

(** ** Methods keep the invariant and only ever append to the trace *)

Lemma Sound_same {A} (m : M A) :
  (forall s, snd (m s) = s) -> Sound m.
Proof.
  intros H s; rewrite H; split; auto.
  exists []; rewrite app_nil_r; reflexivity.
Qed.

Lemma Sound_ret {A} (a : A) : Sound (ret a).
Proof. apply Sound_same; reflexivity. Qed.

Lemma Sound_throw {A} e : Sound (@throw A e).
Proof. apply Sound_same; reflexivity. Qed.

Lemma Sound_get_contexts : Sound get_contexts.
Proof. apply Sound_same; reflexivity. Qed.

Lemma Sound_bind {A B} (m : M A) (k : A -> M B) :
  Sound m -> (forall a, Sound (k a)) -> Sound (bind m k).
Proof.
  intros Hm Hk s; unfold bind.
  destruct (Hm s) as [Hi [evs Ht]].
  destruct (m s) as [[a|e] s1]; simpl in *.
  - destruct (Hk a s1) as [Hi' [evs' Ht']].
    split; [auto|].
    exists (evs ++ evs'); rewrite Ht', Ht, app_assoc; reflexivity.
  - split; [auto|]; exists evs; exact Ht.
Qed.

Lemma Sound_emit ev : sink_neutral ev = true -> Sound (emit ev).
Proof.
  intros Hn s; split; [|exists [ev]; reflexivity].
  intros HI; apply Inv_neutral with (s := s) (evs := [ev]); simpl; auto.
  - rewrite Hn; reflexivity.
  - apply HI.
  - apply HI.
Qed.

Lemma Sound_alloc : Sound alloc.
Proof.
  intros s; split; [|exists []; simpl; rewrite app_nil_r; reflexivity].
  intros HI; apply Inv_neutral with (s := s) (evs := []); simpl; auto.
  - rewrite app_nil_r; reflexivity.
  - apply HI.
  - apply HI.
Qed.

Lemma Sound_contexts_indexOf x : Sound (contexts_indexOf x).
Proof.
  apply Sound_same; intros s; unfold contexts_indexOf, bind, get_contexts.
  destruct (contexts s); reflexivity.
Qed.

Lemma Sound_contexts_length : Sound contexts_length.
Proof.
  apply Sound_same; intros s; unfold contexts_length, bind, get_contexts.
  destruct (contexts s); reflexivity.
Qed.

Lemma Sound_closeWindow index : Sound (closeWindow index).
Proof.
  intros s.
  destruct (Z.eq_dec index (-1)) as [->|Hi].
  { rewrite closeWindow_minus_one; simpl; split; auto.
    exists []; rewrite app_nil_r; reflexivity. }
  destruct (contexts s) as [l|] eqn:Hl.
  - destruct (Z_lt_dec index 0) as [Hneg|Hpos].
    { rewrite (closeWindow_outside _ Hl Hi) by lia; simpl; split; auto.
      exists []; rewrite app_nil_r; reflexivity. }
    destruct (Z_lt_dec index (Z.of_nat (length l))) as [Hin|Hout].
    + destruct (@array_split _ l index) as (l1 & c & l2 & -> & <-); [lia|].
      rewrite (closeWindow_middle _ _ _ _ Hl); simpl; split.
      * intros HI; apply Inv_close; assumption.
      * eexists; reflexivity.
    + rewrite (closeWindow_outside _ Hl Hi) by lia; simpl; split; auto.
      exists []; rewrite app_nil_r; reflexivity.
  - rewrite closeWindow_null by assumption; simpl; split; auto.
    exists []; rewrite app_nil_r; reflexivity.
Qed.

Lemma Sound_close_by_identity x :
  Sound (i <- contexts_indexOf x ;; closeWindow i).
Proof.
  apply Sound_bind; [apply Sound_contexts_indexOf | intros i; apply Sound_closeWindow].
Qed.

Lemma Sound_error err : Sound (error err).
Proof.
  intros s; split.
  - intros HI.
    destruct (isStopped s) eqn:Hs.
    + rewrite error_stopped by exact Hs; exact HI.
    + assert (closed s = false) as Hc.
      { destruct (closed s) eqn:Hc; [|reflexivity].
        rewrite (inv_closed HI Hc) in Hs; discriminate. }
      rewrite error_eq by assumption; simpl.
      apply Inv_terminated_with; [exact HI | apply error_calls_terminal | reflexivity].
  - destruct (error_shape err s) as (s' & -> & _ & (evs & Ht & _) & _).
    exists evs; exact Ht.
Qed.

Lemma Sound_complete : Sound complete.
Proof.
  intros s.
  destruct (isStopped s) eqn:Hs.
  { rewrite complete_stopped by exact Hs; simpl; split; auto.
    exists []; rewrite app_nil_r; reflexivity. }
  split.
  - intros HI.
    assert (closed s = false) as Hc.
    { destruct (closed s) eqn:Hc; [|reflexivity].
      rewrite (inv_closed HI Hc) in Hs; discriminate. }
    rewrite complete_eq by assumption; simpl.
    apply Inv_terminated_with; [exact HI | apply complete_calls_terminal | reflexivity].
  - destruct (closed s) eqn:Hc.
    + unfold complete; rewrite Hs.
      unfold bind, set_isStopped.
      rewrite _complete_closed by (simpl; auto); simpl.
      eexists; reflexivity.
    + rewrite complete_eq by assumption; simpl.
      eexists; reflexivity.
Qed.

Lemma Sound_unsubscribe : Sound unsubscribe.
Proof.
  intros s.
  destruct (closed s) eqn:Hc.
  { rewrite unsubscribe_closed by exact Hc; simpl; split; auto.
    exists []; rewrite app_nil_r; reflexivity. }
  rewrite unsubscribe_eq by exact Hc; simpl; split.
  - intros HI.
    apply Inv_terminated_with; [exact HI | apply cancel_calls_terminal | reflexivity].
  - eexists; reflexivity.
Qed.

Lemma Sound_next value : Sound (next value).
Proof.
  intros s; unfold next.
  destruct (isStopped s).
  - simpl; split; auto; exists []; rewrite app_nil_r; reflexivity.
  - rewrite _next_eq; simpl; split.
    + apply Inv_fan_out.
    + eexists; reflexivity.
Qed.

Lemma Sound_notifyComplete inner : Sound (notifyComplete inner).
Proof.
  intros s.
  destruct (Nat.eq_dec (inner_addr inner) (openSubscription s)) as [E|E].
  - rewrite notifyComplete_openings by exact E; simpl; split; auto.
    exists []; rewrite app_nil_r; reflexivity.
  - rewrite notifyComplete_closing by exact E.
    apply Sound_close_by_identity.
Qed.

Lemma Sound_deliver c inner result :
  Sound (InnerSubscriber_deliver this_from_inner (TagContext c) inner result).
Proof.
  induction result as [|n result IH]; simpl.
  - apply Sound_ret.
  - destruct n as [value|err|].
    + apply Sound_bind; [|intros _; exact IH].
      apply Sound_close_by_identity.
    + apply Sound_bind; [apply Sound_error | intros _; apply Sound_ret].
    + apply Sound_bind; [apply Sound_notifyComplete | intros _; apply Sound_ret].
Qed.

Lemma Sound_subscribeToResult c result :
  Sound (subscribeToResult this_from_inner result (TagContext c)).
Proof.
  unfold subscribeToResult.
  apply Sound_bind; [apply Sound_alloc | intros inner].
  apply Sound_bind; [apply Sound_deliver | intros b; apply Sound_ret].
Qed.

(** ** Opening a window *)

Lemma notifyNext_selector_throws value e s :
  closingSelector s value = Throws e -> notifyNext TagOpenings value s = error e s.
Proof.
  intros H; unfold notifyNext, this_; simpl.
  unfold bind at 1; unfold get_closingSelector; rewrite H; reflexivity.
Qed.

Lemma notifyNext_opening_eq value p l s :
  closingSelector s value = Returns p -> contexts s = Some l ->
  notifyNext TagOpenings value s =
  after_push p (next_addr s) (S (next_addr s)) (opened l s).
Proof.
  intros Hsel Hl; unfold notifyNext, this_; simpl.
  unfold bind at 1; unfold get_closingSelector; rewrite Hsel.
  unfold bind at 1; unfold new_Subject, bind at 1, alloc at 1.
  unfold bind at 1; unfold emit at 1; unfold ret at 1.
  unfold bind at 1; unfold new_Subscription, bind at 1, alloc at 1.
  unfold bind at 1; unfold emit at 1; unfold ret at 1.
  unfold bind at 1; unfold contexts_push, bind at 1, get_contexts at 1.
  simpl; rewrite Hl; unfold set_contexts.
  unfold opened, after_push; simpl.
  rewrite <- app_assoc; reflexivity.
Qed.


Lemma NoDup_snoc {A} (l : list A) a : NoDup l -> ~ In a l -> NoDup (l ++ [a]).
Proof.
  induction l as [|b l IH]; intros Hnd Hn; simpl.
  - constructor; [intros [] | constructor].
  - inversion Hnd as [|? ? Hb Hnd']; subst.
    constructor.
    + intros H; apply in_app_or in H as [H|[H|[]]]; [contradiction|].
      subst; apply Hn; left; reflexivity.
    + apply IH; [exact Hnd' | intros H; apply Hn; right; exact H].
Qed.

Lemma sink_state_opened w n m tr :
  sink_state w (tr ++ [NewSubject n; NewSubscription m]) =
  if Nat.eqb n w
  then match sink_state w tr with Fresh => Open | _ => Violated end
  else sink_state w tr.
Proof. rewrite sink_state_app; reflexivity. Qed.

Lemma Inv_opened l s : Inv s -> contexts s = Some l -> Inv (opened l s).
Proof.
  intros [H1 H2 H3 H4 H5 H6] Hl.
  unfold active in H3, H4, H5; rewrite Hl in H3, H4, H5.
  assert (~ In (next_addr s) (map window l)) as Hnew.
  { intros Hin; apply H4 in Hin; rewrite H6 in Hin by lia; discriminate. }
  constructor; unfold active; simpl; auto; try discriminate.
  - rewrite map_app; simpl; apply NoDup_snoc; assumption.
  - intros w Hin; rewrite map_app in Hin; simpl in Hin.
    rewrite sink_state_opened.
    apply in_app_or in Hin as [Hin|[<-|[]]].
    + destruct (Nat.eqb_spec (next_addr s) w) as [E|E]; [subst; contradiction|].
      apply H4; exact Hin.
    + rewrite Nat.eqb_refl, H6 by lia; reflexivity.
  - intros w Hin; rewrite map_app in Hin; simpl in Hin.
    rewrite sink_state_opened.
    destruct (Nat.eqb_spec (next_addr s) w) as [E|E].
    + exfalso; apply Hin, in_or_app; right; left; exact E.
    + apply H5; intros H; apply Hin, in_or_app; left; exact H.
  - intros w Hw; rewrite sink_state_opened.
    destruct (Nat.eqb_spec (next_addr s) w) as [E|E]; [lia|].
    apply H6; lia.
Qed.

Lemma Sound_after_push p w sub : Sound (after_push p w sub).
Proof.
  unfold after_push.
  apply Sound_bind; [apply Sound_subscribeToResult | intros inner].
  apply Sound_bind; [|intros _; apply Sound_emit; reflexivity].
  destruct (inner_closed inner).
  - apply Sound_bind; [apply Sound_contexts_length | intros len; apply Sound_closeWindow].
  - apply Sound_emit; reflexivity.
Qed.

Lemma Inv_retire_openings s : Inv s -> Inv (with_openingsStopped true s).
Proof.
  intros HI; apply Inv_neutral with (s := s) (evs := []); simpl; auto.
  - rewrite app_nil_r; reflexivity.
  - apply HI.
Qed.

Lemma Inv_exec s i : Inv s -> Inv (exec s i).
Proof.
  intros HI; unfold exec; destruct i; simpl; unfold openings_InnerSubscriber.
  - apply Sound_next; exact HI.
  - apply Sound_error; exact HI.
  - apply Sound_complete; exact HI.
  - apply Sound_unsubscribe; exact HI.
  - destruct (openingsStopped s) eqn:Ho; [exact HI|].
    destruct (contexts s) as [l|] eqn:Hl.
    + destruct (closingSelector s value) as [p|e] eqn:Hsel.
      * rewrite notifyNext_opening_eq with (p := p) (l := l) by assumption.
        apply Sound_after_push, Inv_opened; assumption.
      * rewrite notifyNext_selector_throws with (e := e) by assumption.
        apply Sound_error; exact HI.
    + rewrite (inv_null HI Hl) in Ho; discriminate.
  - destruct (openingsStopped s) eqn:Ho; [exact HI|].
    unfold bind, set_openingsStopped, notifyError.
    apply Sound_error, Inv_retire_openings; exact HI.
  - destruct (openingsStopped s) eqn:Ho; [exact HI|].
    unfold bind, set_openingsStopped.
    apply Sound_notifyComplete, Inv_retire_openings; exact HI.
  - rewrite notifyNext_closing; apply Sound_close_by_identity; exact HI.
  - apply Sound_error; exact HI.
  - apply Sound_notifyComplete; exact HI.
Qed.

Lemma Inv_run inputs : forall s, Inv s -> Inv (run s inputs).
Proof.
  induction inputs as [|i inputs IH]; intros s HI; simpl.
  - exact HI.
  - apply IH, Inv_exec; exact HI.
Qed.

(** ** Reading a sink's history off its state *)

Lemma sink_violated_absorbing w evs : fold_left (sink_step w) evs Violated = Violated.
Proof.
  induction evs as [|ev evs IH]; simpl; [reflexivity|].
  replace (sink_step w Violated ev) with Violated; [exact IH|].
  destruct ev; simpl; try reflexivity; destruct (Nat.eqb _ w); reflexivity.
Qed.

Lemma sink_step_terminal w st ev :
  sink_terminal w ev = true ->
  sink_step w st ev = Terminated \/ sink_step w st ev = Violated.
Proof.
  destruct ev; simpl; try discriminate; intros ->; destruct st; auto.
Qed.

Lemma sink_step_after_terminal w ev :
  (sink_call w ev = false /\ sink_step w Terminated ev = Terminated) \/
  sink_step w Terminated ev = Violated.
Proof.
  destruct ev; simpl; auto; destruct (Nat.eqb _ w); auto.
Qed.

Lemma nothing_after_terminal w post st :
  st = Terminated \/ st = Violated ->
  fold_left (sink_step w) post st <> Violated ->
  forall ev, In ev post -> sink_call w ev = false.
Proof.
  revert st; induction post as [|e post IH]; intros st Hst Hnv ev Hin; simpl in *.
  - contradiction.
  - destruct Hst as [-> | ->];
      [|exfalso; apply Hnv; exact (sink_violated_absorbing w (e :: post))].
    destruct (sink_step_after_terminal w e) as [[Hc Hs] | Hs]; rewrite Hs in Hnv.
    + destruct Hin as [<-|Hin]; [exact Hc|].
      apply (IH Terminated); auto.
    + exfalso; apply Hnv, sink_violated_absorbing.
Qed.

Lemma sink_state_snoc w tr ev :
  sink_state w (tr ++ [ev]) = sink_step w (sink_state w tr) ev.
Proof. rewrite sink_state_app; reflexivity. Qed.

Lemma sink_state_Fresh w tr :
  sink_state w tr = Fresh ->
  ~ In (NewSubject w) tr /\ forall ev, In ev tr -> sink_terminal w ev = false.
Proof.
  induction tr as [|e tr IH] using rev_ind; intros H.
  - split; [intros [] | intros ev []].
  - rewrite sink_state_snoc in H.
    assert (sink_state w tr = Fresh /\ e <> NewSubject w /\ sink_terminal w e = false)
      as (Hst & Hne & Hte).
    { destruct e; simpl in *; auto; try (split; [exact H | split; [discriminate | reflexivity]]);
        destruct (Nat.eqb_spec w0 w);
        destruct (sink_state w tr); try discriminate;
        repeat split; auto; congruence. }
    destruct (IH Hst) as [Hn Ht]; split.
    + intros Hin; apply in_app_or in Hin as [Hin|[Hin|[]]]; [auto | congruence].
    + intros ev Hin; apply in_app_or in Hin as [Hin|[<-|[]]]; auto.
Qed.

Lemma sink_state_Open w tr :
  sink_state w tr = Open ->
  In (NewSubject w) tr /\ forall ev, In ev tr -> sink_terminal w ev = false.
Proof.
  induction tr as [|e tr IH] using rev_ind; intros H.
  - discriminate.
  - rewrite sink_state_snoc in H.
    assert ((sink_state w tr = Fresh /\ e = NewSubject w) \/
            (sink_state w tr = Open /\ sink_terminal w e = false)) as [[Hst ->]|[Hst Hte]].
    { destruct e; simpl in *; auto;
        destruct (Nat.eqb_spec w0 w);
        destruct (sink_state w tr); try discriminate; subst; auto. }
    + destruct (sink_state_Fresh _ _ Hst) as [_ Ht]; split.
      * apply in_or_app; right; left; reflexivity.
      * intros ev Hin; apply in_app_or in Hin as [Hin|[<-|[]]]; auto.
    + destruct (IH Hst) as [Hn Ht]; split.
      * apply in_or_app; left; exact Hn.
      * intros ev Hin; apply in_app_or in Hin as [Hin|[<-|[]]]; auto.
Qed.

Lemma sink_state_Terminated w tr :
  sink_state w tr = Terminated ->
  exists ev, In ev tr /\ sink_terminal w ev = true.
Proof.
  induction tr as [|e tr IH] using rev_ind; intros H.
  - discriminate.
  - rewrite sink_state_snoc in H.
    assert (sink_terminal w e = true \/ sink_state w tr = Terminated) as [Hte|Hst].
    { destruct e; simpl in *; auto;
        destruct (Nat.eqb_spec w0 w);
        destruct (sink_state w tr); try discriminate; subst; auto. }
    + exists e; split; [apply in_or_app; right; left; reflexivity | exact Hte].
    + destruct (IH Hst) as (ev & Hin & Hev).
      exists ev; split; [apply in_or_app; left; exact Hin | exact Hev].
Qed.

(** ** Immediate closure *)

Lemma notifyComplete_untagged inner l s :
  inner_context inner = None -> contexts s = Some l ->
  notifyComplete inner s = (Normal tt, s).
Proof.
  intros Hc Hl; unfold notifyComplete.
  destruct (negb (Nat.eqb (inner_addr inner) (openSubscription s))); [|reflexivity].
  apply close_by_identity_absent with (l := l); [exact Hl|].
  intros c H; rewrite Hc in H; discriminate.
Qed.

(** The intended case of the immediate closure: a closing notifier that is
    exhausted at subscribe time and sends nothing but its completion.  The
    context just pushed is the one removed, its sink is completed before
    the window is delivered, and the array is as it was. *)
Lemma notifyNext_exhausted_notifier value l s :
  closingSelector s value = Returns [OnComplete] -> contexts s = Some l ->
  notifyNext TagOpenings value s =
  (Normal tt,
   mkState (Some l) (openSubscription s) (closingSelector s)
           (isStopped s) (closed s) (openingsStopped s)
           (S (S (S (next_addr s))))
           (trace s ++ [NewSubject (next_addr s); NewSubscription (S (next_addr s));
                        WindowComplete (next_addr s);
                        SubscriptionUnsubscribe (S (next_addr s));
                        DestinationNext (next_addr s)])).
Proof.
  intros Hsel Hl.
  rewrite notifyNext_opening_eq with (p := [OnComplete]) (l := l) by assumption.
  unfold after_push, subscribeToResult.
  unfold bind at 1; unfold bind at 1; unfold alloc at 1.
  unfold bind at 1; simpl InnerSubscriber_deliver.
  unfold bind at 1; simpl parent_notifyComplete.
  rewrite notifyComplete_untagged
    with (l := l ++ [mkContext (next_addr s) (S (next_addr s))]) by reflexivity.
  unfold ret at 1; unfold ret at 1; simpl inner_closed; cbv iota.
  unfold bind at 1; unfold bind at 1.
  unfold contexts_length, bind at 1, get_contexts, ret.
  cbn [contexts with_next_addr opened].
  replace (Z.of_nat (length (l ++ [mkContext (next_addr s) (S (next_addr s))])) - 1)%Z
    with (Z.of_nat (length l)) by (rewrite length_app; simpl; lia).
  rewrite closeWindow_middle
    with (l1 := l) (c := mkContext (next_addr s) (S (next_addr s))) (l2 := [])
    by reflexivity.
  unfold destination_next, emit; simpl.
  rewrite app_nil_r, <- !app_assoc; reflexivity.
Qed.

(** The closed branch after a value.  Whenever at least one window [a] is
    open and the closing notifier of a new opening sends a value and then
    completes during the subscribe call, the value closes the new context
    and the closed branch closes [a], the last of the earlier contexts,
    whose own notifier has not fired. *)
Lemma notifyNext_value_then_complete value v rest l a s :
  closingSelector s value = Returns (OnNext v :: OnComplete :: rest) ->
  contexts s = Some (l ++ [a]) ->
  (forall c, In c (l ++ [a]) -> window c < next_addr s) ->
  notifyNext TagOpenings value s =
  (Normal tt,
   mkState (Some l) (openSubscription s) (closingSelector s)
           (isStopped s) (closed s) (openingsStopped s)
           (S (S (S (next_addr s))))
           (trace s ++ [NewSubject (next_addr s); NewSubscription (S (next_addr s));
                        WindowComplete (next_addr s);
                        SubscriptionUnsubscribe (S (next_addr s));
                        WindowComplete (window a);
                        SubscriptionUnsubscribe (subscription a);
                        DestinationNext (next_addr s)])).
Proof.
  intros Hsel Hl Hfresh.
  set (c := mkContext (next_addr s) (S (next_addr s))).
  assert (~ In c (l ++ [a])) as Hc.
  { intros Hin; apply Hfresh in Hin; simpl in Hin; lia. }
  rewrite notifyNext_opening_eq
    with (p := OnNext v :: OnComplete :: rest) (l := l ++ [a]) by assumption.
  unfold after_push, subscribeToResult.
  unfold bind at 1; unfold bind at 1; unfold alloc at 1.
  unfold bind at 1; simpl InnerSubscriber_deliver.
  unfold bind at 1.
  rewrite close_by_identity_present with (l1 := l ++ [a]) (l2 := [])
    by (try exact Hc; reflexivity).
  unfold bind at 1.
  rewrite notifyComplete_untagged with (l := (l ++ [a]) ++ []) by reflexivity.
  unfold ret at 1; unfold ret at 1; simpl inner_closed; cbv iota.
  unfold bind at 1; unfold bind at 1.
  unfold contexts_length, bind at 1, get_contexts, ret.
  cbn [contexts with_trace with_contexts with_next_addr opened].
  replace (Z.of_nat (length ((l ++ [a]) ++ [])) - 1)%Z
    with (Z.of_nat (length l)) by (rewrite app_nil_r, length_app; simpl; lia).
  rewrite closeWindow_middle with (l1 := l) (c := a) (l2 := [])
    by (simpl; rewrite app_nil_r; reflexivity).
  unfold destination_next, emit; simpl.
  rewrite app_nil_r, <- !app_assoc; reflexivity.
Qed.


(** A closing notifier that goes on after its first value: the window is
    closed already, so further values find nothing to close, and neither
    does the completion, which arrives on an inner subscriber that has no
    context attached yet. *)
Lemma deliver_values_then_complete c inner vs rest l s :
  forallb is_value vs = true ->
  contexts s = Some l -> ~ In c l ->
  InnerSubscriber_deliver this_from_inner (TagContext c) inner
                          (vs ++ OnComplete :: rest) s = (Normal true, s).
Proof.
  intros Hv Hl Hn; induction vs as [|n vs IH]; simpl.
  - unfold bind; simpl parent_notifyComplete.
    rewrite notifyComplete_untagged with (l := l) by (try exact Hl; reflexivity).
    reflexivity.
  - simpl in Hv; apply andb_true_iff in Hv as [Hn1 Hv].
    destruct n as [value| |]; try discriminate.
    unfold bind at 1.
    rewrite close_by_identity_absent with (l := l);
      [|exact Hl | intros c' Hc; inversion Hc; subst; exact Hn].
    apply IH; exact Hv.
Qed.





(** ** Removal comes before the terminal call

    Each method that sends a terminal call to a sink has first taken the
    context out of the array (or set the array to [null]): the calls are
    made from the state in which the array is already updated. *)

Lemma closeWindow_order l1 c l2 s :
  contexts s = Some (l1 ++ c :: l2) ->
  closeWindow (Z.of_nat (length l1)) s =
  (Subject_complete (window c) ;; Subscription_unsubscribe (subscription c))
    (with_contexts (Some (l1 ++ l2)) s).
Proof.
  intros Hl; unfold closeWindow.
  destruct (Z.eqb_spec (Z.of_nat (length l1)) (-1)); [lia|].
  unfold bind at 1; unfold get_contexts at 1; rewrite Hl.
  rewrite array_get_middle, splice1_middle.
  reflexivity.
Qed.

Lemma _error_order err s :
  _error err s =
  (forEach (active s)
     (fun c => Subject_error (window c) err ;;
               Subscription_unsubscribe (subscription c)) ;;
   super__error err) (with_contexts None s).
Proof.
  unfold _error, bind at 1, get_contexts at 1.
  unfold bind at 1; unfold set_contexts at 1.
  unfold active; destruct (contexts s); reflexivity.
Qed.

Lemma _complete_order s :
  _complete s =
  (forEach (active s)
     (fun c => Subject_complete (window c) ;;
               Subscription_unsubscribe (subscription c)) ;;
   super__complete) (with_contexts None s).
Proof.
  unfold _complete, bind at 1, get_contexts at 1.
  unfold bind at 1; unfold set_contexts at 1.
  unfold active; destruct (contexts s); reflexivity.
Qed.

Lemma _unsubscribe_order s :
  _unsubscribe s =
  (forEach (active s)
     (fun c => Subject_unsubscribe (window c) ;;
               Subscription_unsubscribe (subscription c)))
    (with_contexts None s).
Proof.
  unfold _unsubscribe, bind at 1, get_contexts at 1.
  unfold bind at 1; unfold set_contexts at 1.
  unfold active; destruct (contexts s); reflexivity.
Qed.

(** * Properties of the specification *)

(** The life of a sink between the inputs of a constructed coordinator:
    once the sink has received a terminal call ([complete], [unsubscribe]
    or [error]) it receives no further call of any kind; and the context
    holding [w] is in the array exactly when [w] was created and has
    received no terminal call. *)
Lemma sink_lifecycle_of_runs (sel : Any -> SelectorResult)
      (inputs : list Input) (w : Addr) :
  (forall pre ev post,
      trace (run (initial sel) inputs) = pre ++ ev :: post ->
      sink_terminal w ev = true ->
      forall ev', In ev' post -> sink_call w ev' = false) /\
  (In w (map window (active (run (initial sel) inputs))) <->
   In (NewSubject w) (trace (run (initial sel) inputs)) /\
   forall ev, In ev (trace (run (initial sel) inputs)) -> sink_terminal w ev = false).
Proof.
  pose proof (Inv_run inputs (Inv_initial sel)) as HI.
  set (s := run (initial sel) inputs) in *.
  assert (sink_state w (trace s) <> Violated) as Hnv.
  { destruct (in_dec Nat.eq_dec w (map window (active s))) as [Hin|Hin].
    - rewrite (inv_open HI w Hin); discriminate.
    - destruct (inv_rest HI w Hin) as [-> | ->]; discriminate. }
  split.
  - intros pre ev post Htr Hterm.
    rewrite Htr in Hnv.
    change (pre ++ ev :: post) with (pre ++ [ev] ++ post) in Hnv.
    rewrite app_assoc, sink_state_app, sink_state_snoc in Hnv.
    apply nothing_after_terminal with (st := sink_step w (sink_state w pre) ev).
    + apply sink_step_terminal; exact Hterm.
    + exact Hnv.
  - split.
    + intros Hin; apply sink_state_Open, (inv_open HI); exact Hin.
    + intros [Hnew Hterm].
      destruct (in_dec Nat.eq_dec w (map window (active s))) as [Hin|Hin]; [exact Hin|].
      exfalso; destruct (inv_rest HI w Hin) as [Hf|Ht].
      * apply sink_state_Fresh in Hf as [Hf _]; contradiction.
      * apply sink_state_Terminated in Ht as (ev & Hev & Htrue).
        rewrite (Hterm ev Hev) in Htrue; discriminate.
Qed.

(** C3. On a fault reaching a live coordinator, whether from the source
    ([error]), from the openings stream or a closing notifier
    ([notifyError]) or from the closing selector, every context of the
    active array gets [error(cause)] on its sink and [unsubscribe] on its
    handle, in array order, and only then does downstream get its
    [error(cause)]; that is the only downstream error of the whole run, for
    the coordinator is terminated and no later input adds to the trace. *)
Theorem fault_reaches_every_window_then_downstream (s : State) (cause : Any) :
  isStopped s = false -> closed s = false ->
  error cause s =
    (Normal tt,
     terminated_with
       (flat_map (error_calls cause) (active s) ++
        [DestinationError cause; TeardownChildren]) s) /\
  notifyError cause s = error cause s /\
  (forall value, closingSelector s value = Throws cause ->
                 notifyNext TagOpenings value s = error cause s) /\
  (forall inputs, run (snd (error cause s)) inputs = snd (error cause s)).
Proof.
  intros Hs Hc; split; [|split; [|split]].
  - apply error_eq; assumption.
  - reflexivity.
  - intros value Hv; apply notifyNext_selector_throws; exact Hv.
  - intros inputs; apply run_terminated.
    rewrite error_eq by assumption; apply terminated_with_terminated.
Qed.

(** C4. When [closingSelector] throws on an opening value, [notifyNext]
    returns normally (no language-level fault): it is exactly the call
    [this.error(e)] with the exception as cause.  Nothing is allocated, no
    context is added, and the trace gains neither a new sink, nor a new
    handle, nor a window delivered downstream; on a live coordinator the
    call is the Error terminal transition. *)
Theorem selector_fault_opens_no_window (s : State) (value e : Any) :
  closingSelector s value = Throws e ->
  notifyNext TagOpenings value s = error e s /\
  fst (notifyNext TagOpenings value s) = Normal tt /\
  next_addr (snd (notifyNext TagOpenings value s)) = next_addr s /\
  (forall c, In c (active (snd (notifyNext TagOpenings value s))) -> In c (active s)) /\
  (exists evs,
      trace (snd (notifyNext TagOpenings value s)) = trace s ++ evs /\
      forallb (fun ev => negb (opens_window ev)) evs = true) /\
  (isStopped s = false -> closed s = false ->
   notifyNext TagOpenings value s =
     (Normal tt,
      terminated_with
        (flat_map (error_calls e) (active s) ++ [DestinationError e; TeardownChildren])
        s)).
Proof.
  intros Hsel.
  rewrite notifyNext_selector_throws with (e := e) by exact Hsel.
  destruct (error_shape e s) as (s' & Heq & Hn & Hev & Hin).
  rewrite Heq; simpl.
  repeat split; auto.
  intros Hs Hc; rewrite <- Heq; apply error_eq; assumption.
Qed.

(** C5. [_next] delivers the source value to the sink of every context of
    the active array, in array order, and changes nothing but the trace:
    the array itself is not mutated.  On the [null] sentinel it does
    nothing at all.  The public [next] of a coordinator that is not stopped
    is [_next]. *)
Theorem source_value_fans_out (s : State) (value : T) :
  _next value s =
    (Normal tt,
     with_trace (trace s ++ map (fun c => WindowNext (window c) value) (active s)) s) /\
  contexts (snd (_next value s)) = contexts s /\
  (contexts s = None -> _next value s = (Normal tt, s)) /\
  (isStopped s = false -> next value s = _next value s).
Proof.
  rewrite _next_eq; simpl; repeat split.
  - intros Hn; unfold active; rewrite Hn; simpl.
    rewrite with_trace_nil; reflexivity.
  - intros Hs; unfold next; rewrite Hs; apply _next_eq.
Qed.

(** C6. When the source completes on a live coordinator, [_complete] first
    sets the array to [null]; from that state, for every previously active
    context in array order it calls [complete] on the sink and then
    [unsubscribe] on the handle; then it calls [complete] on the downstream
    consumer, the last notification of the transition. *)
Theorem source_completion_teardown (s : State) :
  isStopped s = false -> closed s = false ->
  complete s =
    (Normal tt,
     terminated_with
       (flat_map complete_calls (active s) ++ [DestinationComplete; TeardownChildren])
       s) /\
  _complete s =
    (forEach (active s)
       (fun c => Subject_complete (window c) ;;
                 Subscription_unsubscribe (subscription c)) ;;
     super__complete) (with_contexts None s).
Proof.
  intros Hs Hc; split.
  - apply complete_eq; assumption.
  - apply _complete_order.
Qed.

(** C7. When a coordinator that has neither failed nor completed is
    cancelled, [unsubscribe] sets the array to [null] and, for every
    previously active context in array order, calls [unsubscribe] (not
    [complete]) on the sink and [unsubscribe] on the handle; no event of
    the transition notifies the downstream consumer. *)
Theorem cancellation_teardown (s : State) :
  closed s = false ->
  unsubscribe s =
    (Normal tt,
     terminated_with (flat_map cancel_calls (active s) ++ [TeardownChildren]) s) /\
  _unsubscribe s =
    (forEach (active s)
       (fun c => Subject_unsubscribe (window c) ;;
                 Subscription_unsubscribe (subscription c)))
      (with_contexts None s) /\
  forallb (fun ev => negb (downstream_event ev))
          (flat_map cancel_calls (active s) ++ [TeardownChildren]) = true.
Proof.
  intros Hc; repeat split.
  - apply unsubscribe_eq; exact Hc.
  - apply _unsubscribe_order.
  - rewrite forallb_app; simpl; rewrite andb_true_r.
    induction (active s) as [|c l IH]; simpl; auto.
Qed.

(** [notifyComplete] for the openings subscription changes nothing: no
    context leaves the array and neither a sink nor downstream is called;
    the openings' inner subscriber is retired and the windows that are open
    go on receiving the source values.  [notifyComplete] for the inner
    subscriber of a closing notifier performs Close-One-Window for the
    context it is tagged with: that context leaves the array, its sink is
    completed and its handle cancelled; if the context has left the array
    already nothing happens.  An inner subscriber that carries no context
    (the openings' one, even before [openSubscription] is assigned) never
    closes a window by completing. *)
Lemma notifyComplete_by_identity (s : State) :
  (forall inner, inner_addr inner = openSubscription s ->
                 notifyComplete inner s = (Normal tt, s)) /\
  (openingsStopped s = false ->
   step OpeningsComplete s = (Normal tt, with_openingsStopped true s)) /\
  (forall value,
      isStopped s = false ->
      next value (with_openingsStopped true s) =
        (Normal tt,
         with_trace (trace s ++ map (fun c => WindowNext (window c) value) (active s))
                    (with_openingsStopped true s))) /\
  (forall inner c l1 l2,
      inner_addr inner <> openSubscription s ->
      inner_context inner = Some c ->
      contexts s = Some (l1 ++ c :: l2) -> ~ In c l1 ->
      notifyComplete inner s =
        (Normal tt,
         with_trace (trace s ++ complete_calls c)
                    (with_contexts (Some (l1 ++ l2)) s))) /\
  (forall inner c l,
      inner_addr inner <> openSubscription s ->
      inner_context inner = Some c ->
      contexts s = Some l -> ~ In c l ->
      notifyComplete inner s = (Normal tt, s)) /\
  (forall inner l,
      inner_context inner = None -> contexts s = Some l ->
      notifyComplete inner s = (Normal tt, s)).
Proof.
  split; [|split; [|split; [|split; [|split]]]].
  - intros inner H; apply notifyComplete_openings; exact H.
  - intros Ho; simpl; unfold openings_InnerSubscriber; rewrite Ho.
    unfold bind, set_openingsStopped.
    apply notifyComplete_openings; reflexivity.
  - intros value Hs; unfold next; simpl; rewrite Hs.
    rewrite _next_eq; reflexivity.
  - intros inner c l1 l2 Hne Hc Hl Hn.
    rewrite notifyComplete_closing, Hc by exact Hne.
    apply close_by_identity_present; assumption.
  - intros inner c l Hne Hc Hl Hn.
    rewrite notifyComplete_closing, Hc by exact Hne.
    apply close_by_identity_absent with (l := l); [exact Hl|].
    intros c' Hc'; inversion Hc'; subst; exact Hn.
  - intros inner l Hc Hl; apply notifyComplete_untagged with (l := l); assumption.
Qed.

(** C8. The completion of a closing notifier that arrives during the
    subscribe call closes by position, not by tag.  The inner subscriber
    has no context attached while [subscribeToResult] is running, so
    [notifyComplete] finds nothing to close by identity; the close is left
    to [closeWindow(this.contexts.length - 1)] after the call.  When the
    notifier has sent a value before completing, the value has already
    closed the context it is tagged with, and the last context of the array
    is then [a], a window opened earlier whose own notifier has not fired:
    [a] leaves the array, its sink is completed and its handle cancelled. *)
Theorem completion_during_subscribe_closes_by_position
        (s : State) (value v : Any) (vs rest : Producer)
        (l : list WindowContext) (a : WindowContext) :
  closingSelector s value = Returns (OnNext v :: vs ++ OnComplete :: rest) ->
  forallb is_value vs = true ->
  contexts s = Some (l ++ [a]) ->
  (forall c, In c (l ++ [a]) -> window c < next_addr s) ->
  (forall inner s' l',
      inner_context inner = None -> contexts s' = Some l' ->
      notifyComplete inner s' = (Normal tt, s')) /\
  notifyNext TagOpenings value s =
  (Normal tt,
   mkState (Some l) (openSubscription s) (closingSelector s)
           (isStopped s) (closed s) (openingsStopped s)
           (S (S (S (next_addr s))))
           (trace s ++ [NewSubject (next_addr s); NewSubscription (S (next_addr s));
                        WindowComplete (next_addr s);
                        SubscriptionUnsubscribe (S (next_addr s));
                        WindowComplete (window a);
                        SubscriptionUnsubscribe (subscription a);
                        DestinationNext (next_addr s)])).
Proof.
  intros Hsel Hvs Hl Hfresh; split.
  { intros inner s' l' Hc Hl'; apply notifyComplete_untagged with (l := l'); assumption. }
  set (c := mkContext (next_addr s) (S (next_addr s))).
  assert (~ In c (l ++ [a])) as Hc.
  { intros Hin; apply Hfresh in Hin; simpl in Hin; lia. }
  rewrite notifyNext_opening_eq
    with (p := OnNext v :: vs ++ OnComplete :: rest) (l := l ++ [a]) by assumption.
  unfold after_push, subscribeToResult.
  unfold bind at 1; unfold bind at 1; unfold alloc at 1.
  unfold bind at 1; cbn [InnerSubscriber_deliver].
  unfold bind at 1.
  rewrite this_from_inner_closing, notifyNext_closing.
  rewrite close_by_identity_present with (l1 := l ++ [a]) (l2 := [])
    by (try exact Hc; reflexivity).
  rewrite deliver_values_then_complete with (l := (l ++ [a]) ++ [])
    by (try exact Hvs; try reflexivity; rewrite app_nil_r; exact Hc).
  unfold ret at 1; simpl inner_closed; cbv iota.
  unfold bind at 1; unfold bind at 1.
  unfold contexts_length, bind at 1, get_contexts, ret.
  cbn [contexts with_trace with_contexts with_next_addr opened].
  replace (Z.of_nat (length ((l ++ [a]) ++ [])) - 1)%Z
    with (Z.of_nat (length l)) by (rewrite app_nil_r, length_app; simpl; lia).
  rewrite closeWindow_middle with (l1 := l) (c := a) (l2 := [])
    by (simpl; rewrite app_nil_r; reflexivity).
  unfold destination_next, emit; simpl.
  rewrite app_nil_r, <- !app_assoc; reflexivity.
Qed.


(** C10. [closeWindow] with index [-1] changes nothing at all, whatever
    the state: the array may hold contexts, be empty, or be [null].  With
    an index inside the array it removes the one context at that index and
    keeps the others in their order; the only calls it makes are
    [complete] on the sink and [unsubscribe] on the handle of the removed
    context, and no other field of the coordinator changes.  These are the
    only indices it is ever called with: [this.contexts.indexOf(x)] and
    [this.contexts.length - 1] are [-1] or inside the array, and [-1] is
    what they give on an empty array. *)
Theorem closeWindow_frame (s : State) :
  closeWindow (-1) s = (Normal tt, s) /\
  (forall l index,
      contexts s = Some l ->
      (0 <= index < Z.of_nat (length l))%Z ->
      exists l1 c l2,
        l = l1 ++ c :: l2 /\
        Z.of_nat (length l1) = index /\
        closeWindow index s =
          (Normal tt,
           with_trace
             (trace s ++ [WindowComplete (window c); SubscriptionUnsubscribe (subscription c)])
             (with_contexts (Some (l1 ++ l2)) s))) /\
  (forall l x, indexOf l x = (-1)%Z \/ (0 <= indexOf l x < Z.of_nat (length l))%Z) /\
  (forall l : list WindowContext,
      (Z.of_nat (length l) - 1 = -1 \/
       0 <= Z.of_nat (length l) - 1 < Z.of_nat (length l))%Z) /\
  (forall x, indexOf [] x = (-1)%Z) /\
  (Z.of_nat (length (@nil WindowContext)) - 1 = -1)%Z.
Proof.
  split; [reflexivity|]; split; [|split; [|split; [|split]]].
  - intros l index Hl Hi.
    destruct (array_split l Hi) as (l1 & c & l2 & -> & <-).
    exists l1, c, l2; repeat split.
    apply closeWindow_middle; exact Hl.
  - intros l x; apply indexOf_range.
  - intros l; apply last_index_range.
  - intros [c|]; reflexivity.
  - reflexivity.
Qed.


(** * Further properties of the code *)

(** ** The downstream contract on traces *)

Lemma quiet_no_terminal evs :
  forallb (fun e => negb (downstream_event e)) evs = true ->
  existsb downstream_terminal evs = false.
Proof.
  induction evs as [|ev evs IH]; simpl; intros H; [reflexivity|].
  apply andb_true_iff in H as [H1 H2].
  rewrite IH by exact H2.
  destruct ev; simpl in *; try reflexivity; discriminate.
Qed.

Lemma quiet_downstream_ok evs :
  forallb (fun e => negb (downstream_event e)) evs = true -> downstream_ok evs = true.
Proof.
  induction evs as [|ev evs IH]; simpl; intros H; [reflexivity|].
  apply andb_true_iff in H as [H1 H2].
  destruct (downstream_terminal ev); auto.
Qed.

Lemma downstream_ok_fresh tr evs :
  existsb downstream_terminal tr = false ->
  downstream_ok (tr ++ evs) = downstream_ok evs.
Proof.
  induction tr as [|ev tr IH]; simpl; intros H; [reflexivity|].
  apply orb_false_iff in H as [H1 H2].
  rewrite H1; apply IH; exact H2.
Qed.

Lemma downstream_ok_quiet tr evs :
  downstream_ok tr = true ->
  forallb (fun e => negb (downstream_event e)) evs = true ->
  downstream_ok (tr ++ evs) = true.
Proof.
  induction tr as [|ev tr IH]; simpl; intros H Hq.
  - apply quiet_downstream_ok; exact Hq.
  - destruct (downstream_terminal ev).
    + rewrite forallb_app, H, Hq; reflexivity.
    + apply IH; assumption.
Qed.

Lemma downstream_ok_after pre ev post :
  downstream_ok (pre ++ ev :: post) = true ->
  downstream_terminal ev = true ->
  forall e, In e post -> downstream_event e = false.
Proof.
  induction pre as [|a pre IH]; simpl; intros H Hev e Hin.
  - rewrite Hev in H.
    rewrite forallb_forall in H; apply H in Hin.
    destruct (downstream_event e); [discriminate | reflexivity].
  - destruct (downstream_terminal a).
    + rewrite forallb_forall in H.
      assert (In e (pre ++ ev :: post)) as Hin'
          by (apply in_or_app; right; right; exact Hin).
      apply H in Hin'.
      destruct (downstream_event e); [discriminate | reflexivity].
    + apply IH; assumption.
Qed.

(** ** Arrays in order of creation *)

Lemma sorted_remove (l1 : list nat) c l2 :
  StronglySorted lt (l1 ++ c :: l2) -> StronglySorted lt (l1 ++ l2).
Proof.
  induction l1 as [|a l1 IH]; simpl; intros H.
  - inversion H; assumption.
  - inversion H as [|? ? Hs Hf]; subst.
    constructor; [apply IH; exact Hs|].
    rewrite Forall_app in *; destruct Hf as [Hf1 Hf2].
    inversion Hf2; auto.
Qed.

Lemma sorted_snoc (l : list nat) n :
  StronglySorted lt l -> (forall a, In a l -> a < n) -> StronglySorted lt (l ++ [n]).
Proof.
  induction l as [|a l IH]; simpl; intros H Hb.
  - constructor; constructor.
  - inversion H as [|? ? Hs Hf]; subst.
    constructor.
    + apply IH; [exact Hs | intros b Hin; apply Hb; right; exact Hin].
    + rewrite Forall_app; split; [exact Hf|].
      constructor; [apply Hb; left; reflexivity | constructor].
Qed.

Lemma sorted_NoDup (l : list nat) : StronglySorted lt l -> NoDup l.
Proof.
  induction 1 as [|a l Hs IH Hf]; constructor; [|exact IH].
  intros Hin; rewrite Forall_forall in Hf; apply Hf in Hin; lia.
Qed.

(** ** Good order is kept *)

Lemma Orderly_initial sel : Orderly (initial sel).
Proof.
  constructor; simpl; try (split; discriminate); try discriminate;
    try contradiction; auto.
  - constructor.
Qed.

Lemma no_terminal_downstream_ok evs :
  existsb downstream_terminal evs = false -> downstream_ok evs = true.
Proof.
  induction evs as [|ev evs IH]; simpl; intros H; [reflexivity|].
  apply orb_false_iff in H as [H1 H2]; rewrite H1; auto.
Qed.

(** A step of a live coordinator that leaves it live. *)
Lemma Orderly_live_append s s' evs :
  Orderly s -> contexts s <> None ->
  trace s' = trace s ++ evs ->
  existsb downstream_terminal evs = false ->
  (forall w, In (NewSubject w) evs -> In (NewSubscription (S w)) evs) ->
  (forall w ev, In ev evs -> sink_terminal w ev = true ->
                In (SubscriptionUnsubscribe (S w)) evs) ->
  isStopped s' = isStopped s ->
  closed s' = closed s ->
  contexts s' <> None ->
  (forall c, In c (active s') -> subscription c = S (window c)) ->
  (forall c, In c (active s') -> window c < next_addr s') ->
  StronglySorted lt (map window (active s')) ->
  Orderly s'.
Proof.
  intros [H1 H2 H3 H4 H5 H6 H7 H8 H9 H10] Hlive Ht Hq Hnew Hterm Hs Hc Hn Hh Hb Hsort.
  constructor; auto.
  - rewrite Hs; split; intros H; [apply H1 in H|]; contradiction.
  - rewrite Hc; split; intros H; [apply H2 in H|]; contradiction.
  - rewrite Ht, downstream_ok_fresh by auto.
    apply no_terminal_downstream_ok; exact Hq.
  - intros _; rewrite Ht, existsb_app, H5, Hq by exact Hlive; reflexivity.
  - intros w Hw; rewrite Ht in *.
    apply in_app_or in Hw as [Hw|Hw]; apply in_or_app; auto.
  - intros w ev Hev Hte; rewrite Ht in *.
    apply in_app_or in Hev as [Hev|Hev]; apply in_or_app; eauto.
Qed.

Lemma error_calls_teardown err : TeardownCalls (error_calls err).
Proof.
  intros c; eexists; split; [reflexivity|]; repeat split; try discriminate.
  simpl; intros w H; apply Nat.eqb_eq in H; auto.
Qed.

Lemma complete_calls_teardown : TeardownCalls complete_calls.
Proof.
  intros c; eexists; split; [reflexivity|]; repeat split; try discriminate.
  simpl; intros w H; apply Nat.eqb_eq in H; auto.
Qed.

Lemma cancel_calls_teardown : TeardownCalls cancel_calls.
Proof.
  intros c; eexists; split; [reflexivity|]; repeat split; try discriminate.
  simpl; intros w H; apply Nat.eqb_eq in H; auto.
Qed.

Lemma teardown_quiet f l :
  TeardownCalls f ->
  forallb (fun e => negb (downstream_event e)) (flat_map f l) = true.
Proof.
  intros Hf; induction l as [|c l IH]; simpl; [reflexivity|].
  destruct (Hf c) as (t & -> & Hd & _); simpl; rewrite Hd; exact IH.
Qed.

Lemma teardown_events f l ev :
  TeardownCalls f -> In ev (flat_map f l) ->
  exists c, In c l /\
            (ev = SubscriptionUnsubscribe (subscription c) \/
             ((forall w, ev <> NewSubject w) /\
              (forall w, sink_terminal w ev = true -> w = window c) /\
              In (SubscriptionUnsubscribe (subscription c)) (flat_map f l))).
Proof.
  intros Hf Hin; apply in_flat_map in Hin as (c & Hc & Hev).
  exists c; split; [exact Hc|].
  destruct (Hf c) as (t & Heq & _ & Hnew & Hterm).
  rewrite Heq in Hev; destruct Hev as [<-|[<-|[]]].
  - right; repeat split; auto.
    apply in_flat_map; exists c; split; [exact Hc|].
    rewrite Heq; right; left; reflexivity.
  - left; reflexivity.
Qed.

(** Any of the three terminal transitions of a live coordinator. *)
Lemma Orderly_terminated_with f tail s :
  Orderly s -> contexts s <> None -> TeardownCalls f ->
  downstream_ok tail = true ->
  (forall w, ~ In (NewSubject w) tail) ->
  (forall w ev, In ev tail -> sink_terminal w ev = false) ->
  Orderly (terminated_with (flat_map f (active s) ++ tail) s).
Proof.
  intros [H1 H2 H3 H4 H5 H6 H7 H8 H9 H10] Hlive Hf Htail Hnew Hterm.
  constructor; unfold active; simpl; auto; try contradiction.
  - split; reflexivity.
  - split; reflexivity.
  - rewrite downstream_ok_fresh by auto.
    rewrite downstream_ok_fresh
      by (apply quiet_no_terminal, teardown_quiet; exact Hf).
    exact Htail.
  - constructor.
  - intros w Hw.
    apply in_app_or in Hw as [Hw|Hw]; [apply in_or_app; left; auto|].
    exfalso; apply in_app_or in Hw as [Hw|Hw]; [|eapply Hnew; exact Hw].
    destruct (teardown_events _ _ Hf Hw) as (c & _ & [E | (Hn & _)]);
      [discriminate | eapply Hn; reflexivity].
  - intros w ev Hev Hte.
    apply in_app_or in Hev as [Hev|Hev]; [apply in_or_app; left; eauto|].
    apply in_or_app; right.
    apply in_app_or in Hev as [Hev|Hev];
      [|rewrite (Hterm w ev Hev) in Hte; discriminate].
    destruct (teardown_events _ _ Hf Hev) as (c & Hc & [E | (_ & Hw & Hin)]).
    + subst ev; discriminate.
    + apply in_or_app; left.
      rewrite (Hw w Hte), <- (H6 c Hc); exact Hin.
Qed.

Lemma Orderly_close l1 c l2 s :
  Orderly s -> contexts s = Some (l1 ++ c :: l2) ->
  Orderly (with_trace (trace s ++ complete_calls c) (with_contexts (Some (l1 ++ l2)) s)).
Proof.
  intros HO Hl.
  assert (forall c', In c' (l1 ++ l2) -> In c' (active s)) as Hincl.
  { unfold active; rewrite Hl; intros c' H.
    apply in_app_or in H as [?|?]; apply in_or_app; simpl; auto. }
  assert (In c (active s)) as Hc by (unfold active; rewrite Hl; apply in_elt).
  apply Orderly_live_append with (s := s) (evs := complete_calls c);
    unfold active; simpl; auto; try congruence.
  - intros w [H|[H|[]]]; discriminate.
  - intros w ev [<-|[<-|[]]]; simpl; intros H; [|discriminate].
    apply Nat.eqb_eq in H; subst w.
    right; left; rewrite (ord_handle HO c Hc); reflexivity.
  - intros c' H; apply (ord_handle HO), Hincl, H.
  - intros c' H; apply (ord_bound HO), Hincl, H.
  - pose proof (ord_sorted HO) as Hs; unfold active in Hs; rewrite Hl in Hs.
    rewrite map_app in *; simpl in Hs; eapply sorted_remove; exact Hs.
Qed.

Lemma Orderly_opened l s : Orderly s -> contexts s = Some l -> Orderly (opened l s).
Proof.
  intros HO Hl.
  assert (active s = l) as Ha by (unfold active; rewrite Hl; reflexivity).
  apply Orderly_live_append
    with (s := s) (evs := [NewSubject (next_addr s); NewSubscription (S (next_addr s))]);
    unfold active; simpl; auto; try congruence.
  - intros w [H|[H|[]]]; inversion H; subst; auto.
  - intros w ev [<-|[<-|[]]]; simpl; discriminate.
  - intros c H; apply in_app_or in H as [H|[<-|[]]]; [|reflexivity].
    apply (ord_handle HO); rewrite Ha; exact H.
  - intros c H; apply in_app_or in H as [H|[<-|[]]]; [|simpl; lia].
    rewrite <- Ha in H; apply (ord_bound HO) in H; lia.
  - rewrite map_app; simpl; apply sorted_snoc.
    + rewrite <- Ha; apply (ord_sorted HO).
    + intros a H; apply in_map_iff in H as (c & <- & H).
      rewrite <- Ha in H; apply (ord_bound HO); exact H.
Qed.

Lemma Orderly_fan_out value s :
  Orderly s -> contexts s <> None ->
  Orderly (with_trace (trace s ++ map (fun c => WindowNext (window c) value) (active s)) s).
Proof.
  intros HO Hlive.
  apply Orderly_live_append
    with (s := s) (evs := map (fun c => WindowNext (window c) value) (active s));
    simpl; auto.
  - induction (active s); simpl; auto.
  - intros w H; apply in_map_iff in H as (c & H & _); discriminate.
  - intros w ev H; apply in_map_iff in H as (c & <- & _); discriminate.
  - apply (ord_handle HO).
  - apply (ord_bound HO).
  - apply (ord_sorted HO).
Qed.

(** A live coordinator that records one neutral call. *)
Lemma Orderly_neutral ev s :
  Orderly s -> contexts s <> None ->
  downstream_terminal ev = false ->
  (forall w, ev <> NewSubject w) ->
  (forall w, sink_terminal w ev = false) ->
  Orderly (with_trace (trace s ++ [ev]) s).
Proof.
  intros HO Hlive Hd Hn Ht.
  apply Orderly_live_append with (s := s) (evs := [ev]); simpl; auto.
  - rewrite Hd; reflexivity.
  - intros w [H|[]]; exfalso; eapply Hn; exact H.
  - intros w e [<-|[]] H; rewrite Ht in H; discriminate.
  - apply (ord_handle HO).
  - apply (ord_bound HO).
  - apply (ord_sorted HO).
Qed.

(** ** Pre- and postconditions of the methods *)

Lemma triple_ret {A} (P : State -> Prop) (a : A) (Q : A -> State -> Prop) E :
  (forall s, P s -> Q a s) -> triple P (ret a) Q E.
Proof. intros H s Hs; simpl; auto. Qed.

Lemma triple_bind {A B} (P : State -> Prop) (m : M A) (Q : A -> State -> Prop)
      (k : A -> M B) (R : B -> State -> Prop) E :
  triple P m Q E -> (forall a, triple (Q a) (k a) R E) -> triple P (bind m k) R E.
Proof.
  intros Hm Hk s Hs; unfold bind.
  specialize (Hm s Hs).
  destruct (m s) as [[a|e] s1]; [apply Hk; exact Hm | exact Hm].
Qed.

Lemma triple_weaken {A} (P P' : State -> Prop) (m : M A)
      (Q Q' : A -> State -> Prop) (E E' : State -> Prop) :
  triple P m Q E ->
  (forall s, P' s -> P s) -> (forall a s, Q a s -> Q' a s) -> (forall s, E s -> E' s) ->
  triple P' m Q' E'.
Proof.
  intros Hm HP HQ HE s Hs; specialize (Hm s (HP s Hs)).
  destruct (m s) as [[a|e] s1]; auto.
Qed.

Lemma Live_flags s : Live s -> isStopped s = false /\ closed s = false.
Proof.
  intros [HO Hl]; split.
  - destruct (isStopped s) eqn:E; [|reflexivity].
    exfalso; apply Hl, (ord_stopped HO), E.
  - destruct (closed s) eqn:E; [|reflexivity].
    exfalso; apply Hl, (ord_closed HO), E.
Qed.

Lemma triple_closeWindow index :
  triple Live (closeWindow index) (fun _ => Live) Orderly.
Proof.
  intros s [HO Hl].
  destruct (Z.eq_dec index (-1)) as [->|Hi].
  { rewrite closeWindow_minus_one; split; assumption. }
  destruct (contexts s) as [l|] eqn:El; [|contradiction].
  destruct (Z_lt_dec index 0) as [Hneg|Hpos].
  { rewrite (closeWindow_outside _ El Hi) by lia; exact HO. }
  destruct (Z_lt_dec index (Z.of_nat (length l))) as [Hin|Hout].
  - destruct (@array_split _ l index) as (l1 & c & l2 & -> & <-); [lia|].
    rewrite (closeWindow_middle _ _ _ _ El); split.
    + apply Orderly_close; assumption.
    + simpl; discriminate.
  - rewrite (closeWindow_outside _ El Hi) by lia; exact HO.
Qed.

Lemma triple_close_by_identity x :
  triple Live (i <- contexts_indexOf x ;; closeWindow i) (fun _ => Live) Orderly.
Proof.
  apply triple_bind with (Q := fun _ => Live); [|intros i; apply triple_closeWindow].
  intros s [HO Hl]; unfold contexts_indexOf, bind, get_contexts.
  destruct (contexts s) eqn:El; [|contradiction].
  simpl; split; [exact HO | rewrite El; discriminate].
Qed.

Lemma triple_error err :
  triple Live (error err) (fun _ s' => Orderly s' /\ contexts s' = None) Orderly.
Proof.
  intros s HL; destruct (Live_flags HL) as [Hs Hc]; destruct HL as [HO Hl].
  rewrite error_eq by assumption; split; [|reflexivity].
  apply Orderly_terminated_with; auto.
  - apply error_calls_teardown.
  - intros w [H|[H|[]]]; discriminate.
  - intros w ev [<-|[<-|[]]]; reflexivity.
Qed.

Lemma triple_notifyComplete inner :
  triple Live (notifyComplete inner) (fun _ => Live) Orderly.
Proof.
  intros s HL.
  destruct (Nat.eq_dec (inner_addr inner) (openSubscription s)) as [E|E].
  - rewrite notifyComplete_openings by exact E; exact HL.
  - rewrite notifyComplete_closing by exact E.
    apply triple_close_by_identity; exact HL.
Qed.

Lemma triple_deliver c inner result :
  triple Live (InnerSubscriber_deliver this_from_inner (TagContext c) inner result)
         (fun b s' => Orderly s' /\ (b = false -> contexts s' <> None)) Orderly.
Proof.
  induction result as [|n result IH]; simpl.
  - apply triple_ret; intros s [HO Hl]; auto.
  - destruct n as [value|err|].
    + apply triple_bind with (Q := fun _ => Live); [|intros _; exact IH].
      apply triple_close_by_identity.
    + apply triple_bind with (Q := fun _ s' => Orderly s' /\ contexts s' = None).
      * apply triple_error.
      * intros _; apply triple_ret; intros s [HO _]; split; [exact HO | discriminate].
    + apply triple_bind with (Q := fun _ => Live).
      * apply triple_notifyComplete.
      * intros _; apply triple_ret; intros s [HO _]; split; [exact HO | discriminate].
Qed.

Lemma Live_alloc s : Live s -> Live (with_next_addr (S (next_addr s)) s).
Proof.
  intros [HO Hl]; split; [|exact Hl].
  apply Orderly_live_append with (s := s) (evs := []); simpl; auto.
  - rewrite app_nil_r; reflexivity.
  - apply (ord_handle HO).
  - intros c' H; apply (ord_bound HO) in H; lia.
  - apply (ord_sorted HO).
Qed.

Lemma triple_subscribeToResult c result :
  triple Live (subscribeToResult this_from_inner result (TagContext c))
         (fun inner s' => Orderly s' /\ (inner_closed inner = false -> contexts s' <> None))
         Orderly.
Proof.
  unfold subscribeToResult.
  apply triple_bind with (Q := fun _ => Live).
  - intros s HL; simpl; apply Live_alloc; exact HL.
  - intros inner.
    eapply triple_bind; [apply triple_deliver|].
    intros b; apply triple_ret; auto.
Qed.

Lemma triple_after_push p w sub :
  triple Live (after_push p w sub) (fun _ => Live) Orderly.
Proof.
  unfold after_push.
  eapply triple_bind; [apply triple_subscribeToResult|]; intros inner.
  apply triple_bind with (Q := fun _ => Live).
  - destruct (inner_closed inner).
    + apply triple_bind with (Q := fun _ => Live); [|intros len; apply triple_closeWindow].
      intros s [HO _]; unfold contexts_length, bind, get_contexts.
      destruct (contexts s) eqn:El; simpl; [|exact HO].
      split; [exact HO | rewrite El; discriminate].
    + intros s [HO Hl]; specialize (Hl eq_refl); simpl; split; [|exact Hl].
      apply Orderly_neutral; auto; discriminate.
  - intros _ s [HO Hl]; simpl; split; [|exact Hl].
    apply Orderly_neutral; auto; discriminate.
Qed.

Lemma triple_Orderly {A} (P : State -> Prop) (m : M A) (Q : A -> State -> Prop) s :
  triple P m Q Orderly -> (forall a s', Q a s' -> Orderly s') ->
  P s -> Orderly (snd (m s)).
Proof.
  intros Hm HQ Hs; specialize (Hm s Hs).
  destruct (m s) as [[a|e] s1]; simpl; eauto.
Qed.

Ltac by_triple H :=
  eapply triple_Orderly; [apply H | intros ? ? [? _]; assumption | ].

Lemma Orderly_null_terminated s : Orderly s -> contexts s = None -> terminated s.
Proof.
  intros HO Hn; repeat split.
  - exact Hn.
  - apply (ord_stopped HO), Hn.
  - apply (ord_closed HO), Hn.
  - apply (ord_openings HO), Hn.
Qed.

Lemma Live_retire_openings s : Live s -> Live (with_openingsStopped true s).
Proof.
  intros [HO Hl]; split; [|exact Hl].
  apply Orderly_live_append with (s := s) (evs := []); simpl; auto.
  - rewrite app_nil_r; reflexivity.
  - apply (ord_handle HO).
  - apply (ord_bound HO).
  - apply (ord_sorted HO).
Qed.

Lemma Orderly_exec s i : Orderly s -> Orderly (exec s i).
Proof.
  intros HO.
  destruct (contexts s) as [l|] eqn:El;
    [|rewrite exec_terminated by (apply Orderly_null_terminated; assumption); exact HO].
  assert (Live s) as HL by (split; [exact HO | rewrite El; discriminate]).
  destruct (Live_flags HL) as [Hs Hc].
  assert (contexts s <> None) as Hl by (rewrite El; discriminate).
  unfold exec; destruct i; simpl; unfold openings_InnerSubscriber.
  - unfold next; rewrite Hs, _next_eq; simpl.
    apply Orderly_fan_out; assumption.
  - by_triple (triple_error err); exact HL.
  - rewrite complete_eq by assumption; simpl.
    apply Orderly_terminated_with; auto.
    + apply complete_calls_teardown.
    + intros w [H|[H|[]]]; discriminate.
    + intros w ev [<-|[<-|[]]]; reflexivity.
  - rewrite unsubscribe_eq by assumption; simpl.
    apply Orderly_terminated_with; auto.
    + apply cancel_calls_teardown.
    + intros w [H|[]]; discriminate.
    + intros w ev [<-|[]]; reflexivity.
  - destruct (openingsStopped s); [exact HO|].
    destruct (closingSelector s value) as [p|e] eqn:Hsel.
    + rewrite notifyNext_opening_eq with (p := p) (l := l) by assumption.
      by_triple (triple_after_push p (next_addr s) (S (next_addr s))).
      split; [apply Orderly_opened; assumption | discriminate].
    + rewrite notifyNext_selector_throws with (e := e) by assumption.
      by_triple (triple_error e); exact HL.
  - destruct (openingsStopped s); [exact HO|].
    unfold bind, set_openingsStopped, notifyError.
    by_triple (triple_error err).
    apply Live_retire_openings; exact HL.
  - destruct (openingsStopped s); [exact HO|].
    unfold bind, set_openingsStopped.
    by_triple (triple_notifyComplete (mkInner (openSubscription s) false None)).
    apply Live_retire_openings; exact HL.
  - rewrite notifyNext_closing.
    by_triple (triple_close_by_identity (Some c)); exact HL.
  - by_triple (triple_error err); exact HL.
  - by_triple (triple_notifyComplete inner); exact HL.
Qed.

Lemma Orderly_run inputs : forall s, Orderly s -> Orderly (run s inputs).
Proof.
  induction inputs as [|i inputs IH]; intros s HO; simpl.
  - exact HO.
  - apply IH, Orderly_exec; exact HO.
Qed.

Lemma run_app s inputs more : run s (inputs ++ more) = run (run s inputs) more.
Proof. unfold run; apply fold_left_app. Qed.

(** X3. The downstream consumer is notified lawfully.  Over any run, once
    downstream has received [error] or [complete] it receives nothing more:
    no second terminal notification and no further window. *)
Theorem downstream_hears_nothing_after_terminal (sel : Any -> SelectorResult)
        (inputs : list Input) (pre post : list Event) (ev : Event) :
  trace (run (initial sel) inputs) = pre ++ ev :: post ->
  downstream_terminal ev = true ->
  forall e, In e post -> downstream_event e = false.
Proof.
  intros Ht Hev.
  pose proof (ord_downstream (Orderly_run inputs (Orderly_initial sel))) as Hok.
  rewrite Ht in Hok.
  apply downstream_ok_after with (pre := pre) (ev := ev); assumption.
Qed.

(** X4. The array is kept in order of creation.  Over any run the sinks of
    the active contexts appear in strictly increasing order of address,
    all below the allocation counter: [push] appends the newest context and
    [splice] never reorders, so a source value reaches the open windows in
    the order in which they were opened. *)
Theorem windows_stay_in_opening_order (sel : Any -> SelectorResult)
        (inputs : list Input) :
  StronglySorted lt (map window (active (run (initial sel) inputs))) /\
  (forall c, In c (active (run (initial sel) inputs)) ->
             window c < next_addr (run (initial sel) inputs)) /\
  (forall value,
      isStopped (run (initial sel) inputs) = false ->
      trace (exec (run (initial sel) inputs) (SourceNext value)) =
        trace (run (initial sel) inputs) ++
        map (fun c => WindowNext (window c) value) (active (run (initial sel) inputs))).
Proof.
  pose proof (Orderly_run inputs (Orderly_initial sel)) as HO.
  split; [apply (ord_sorted HO)|].
  split; [apply (ord_bound HO)|].
  intros value Hs; unfold exec; simpl.
  unfold next; rewrite Hs, _next_eq; reflexivity.
Qed.

(** ** What one window carries *)

Lemma WindowContext_eq_dec (x y : WindowContext) : {x = y} + {x <> y}.
Proof. decide equality; apply Nat.eq_dec. Qed.

Lemma fan_out_filter_absent w (value : T) l :
  ~ In w (map window l) ->
  filter (sink_call w) (map (fun c => WindowNext (window c) value) l) = [].
Proof.
  induction l as [|c l IH]; simpl; intros Hn; [reflexivity|].
  destruct (Nat.eqb_spec (window c) w) as [E|E].
  - exfalso; apply Hn; left; exact E.
  - apply IH; intros H; apply Hn; right; exact H.
Qed.

Lemma fan_out_filter w (value : T) l :
  NoDup (map window l) -> In w (map window l) ->
  filter (sink_call w) (map (fun c => WindowNext (window c) value) l) =
  [WindowNext w value].
Proof.
  induction l as [|c l IH]; simpl; intros Hnd Hin; [contradiction|].
  inversion Hnd as [|? ? Hnot Hnd']; subst.
  destruct (Nat.eqb_spec (window c) w) as [E|E].
  - subst w; rewrite fan_out_filter_absent by exact Hnot; reflexivity.
  - destruct Hin as [H|H]; [contradiction|].
    apply IH; assumption.
Qed.

Lemma run_source_values vs : forall s,
  isStopped s = false ->
  run s (map SourceNext vs) =
  with_trace
    (trace s ++
     flat_map (fun value => map (fun c => WindowNext (window c) value) (active s)) vs)
    s.
Proof.
  induction vs as [|value vs IH]; intros s Hs; simpl.
  - rewrite with_trace_nil; reflexivity.
  - unfold exec; simpl; unfold next; rewrite Hs, _next_eq; simpl.
    rewrite IH by exact Hs; simpl.
    unfold with_trace; simpl; rewrite <- app_assoc; reflexivity.
Qed.

Lemma filter_fan_outs w vs l :
  NoDup (map window l) -> In w (map window l) ->
  filter (sink_call w)
         (flat_map (fun value : T => map (fun c => WindowNext (window c) value) l) vs) =
  map (WindowNext w) vs.
Proof.
  intros Hnd Hin; induction vs as [|value vs IH]; simpl; [reflexivity|].
  rewrite filter_app, fan_out_filter, IH by assumption; reflexivity.
Qed.

Lemma window_while_open s l c vs v :
  contexts s = Some l -> isStopped s = false ->
  NoDup (map window l) -> In c l ->
  filter (sink_call (window c))
         (trace (run s (map SourceNext vs ++ [ClosingNext c v]))) =
    filter (sink_call (window c)) (trace s) ++
    map (WindowNext (window c)) vs ++ [WindowComplete (window c)] /\
  ~ In c (active (run s (map SourceNext vs ++ [ClosingNext c v]))).
Proof.
  intros Hl Hs Hnd Hin.
  assert (NoDup l) as Hndl by (eapply NoDup_map_inv; exact Hnd).
  destruct (in_split _ _ Hin) as (l1 & l2 & ->).
  apply NoDup_remove_2 in Hndl.
  assert (~ In c l1) as Hn1 by (intros H; apply Hndl, in_or_app; left; exact H).
  rewrite run_app, run_source_values by exact Hs.
  unfold run; simpl; unfold exec; simpl.
  rewrite notifyNext_closing.
  rewrite close_by_identity_present with (l1 := l1) (l2 := l2) by assumption.
  unfold active; simpl; rewrite Hl; split; [|exact Hndl].
  rewrite !filter_app, filter_fan_outs
    by (try exact Hnd; apply in_map, in_elt).
  simpl; rewrite Nat.eqb_refl, <- app_assoc; reflexivity.
Qed.

(** X5. A window carries exactly the source values that arrive while it is
    open.  Take any run after which the context [c] is in the array; let
    the source then emit the values [vs] and let the closing notifier of
    [c] emit.  To the calls its sink had received so far are added one
    [next] per value, in order, followed by one [complete]; and [c] has
    left the array. *)
Theorem window_carries_values_while_open (sel : Any -> SelectorResult)
        (inputs : list Input) (c : WindowContext) (vs : list T) (v : Any) :
  In c (active (run (initial sel) inputs)) ->
  filter (sink_call (window c))
         (trace (run (initial sel) (inputs ++ map SourceNext vs ++ [ClosingNext c v]))) =
    filter (sink_call (window c)) (trace (run (initial sel) inputs)) ++
    map (WindowNext (window c)) vs ++ [WindowComplete (window c)] /\
  ~ In c (active (run (initial sel) (inputs ++ map SourceNext vs ++ [ClosingNext c v]))).
Proof.
  intros Hin.
  pose proof (Orderly_run inputs (Orderly_initial sel)) as HO.
  pose proof (Inv_run inputs (Inv_initial sel)) as HI.
  rewrite run_app.
  set (s := run (initial sel) inputs) in *.
  destruct (contexts s) as [l|] eqn:Hl;
    [|unfold active in Hin; rewrite Hl in Hin; contradiction].
  assert (Live s) as HL by (split; [exact HO | rewrite Hl; discriminate]).
  destruct (Live_flags HL) as [Hs _].
  pose proof (inv_nodup HI) as Hnd.
  unfold active in Hin, Hnd; rewrite Hl in Hin, Hnd.
  apply window_while_open with (l := l); assumption.
Qed.

(** X6. A window is closed by the first notification of its closing
    notifier and by nothing after it.  After any run, once a value of the
    closing notifier of [c] has been handled, a second value for [c], or a
    completion of an inner subscriber tagged with [c], leaves the
    coordinator exactly as it is: the sink is not completed twice. *)
Theorem later_closing_notifications_change_nothing (sel : Any -> SelectorResult)
        (inputs : list Input) (c : WindowContext) (v v' : Any)
        (a : Addr) (b : bool) :
  exec (exec (run (initial sel) inputs) (ClosingNext c v)) (ClosingNext c v') =
    exec (run (initial sel) inputs) (ClosingNext c v) /\
  exec (exec (run (initial sel) inputs) (ClosingNext c v))
       (ClosingComplete (mkInner a b (Some c))) =
    exec (run (initial sel) inputs) (ClosingNext c v).
Proof.
  pose proof (Inv_run inputs (Inv_initial sel)) as HI.
  set (s := run (initial sel) inputs) in *.
  assert (forall s1,
             (contexts s1 = None \/ exists l, contexts s1 = Some l /\ ~ In c l) ->
             exec s1 (ClosingNext c v') = s1 /\
             exec s1 (ClosingComplete (mkInner a b (Some c))) = s1) as Hgone.
  { intros s1 H; unfold exec; simpl; rewrite notifyNext_closing.
    destruct (Nat.eq_dec a (openSubscription s1)) as [E|E].
    - rewrite (notifyComplete_openings (mkInner a b (Some c))) by exact E.
      destruct H as [Hn | (l & Hl & Hn)].
      + rewrite close_by_identity_null by exact Hn; auto.
      + rewrite close_by_identity_absent with (l := l);
          [auto | exact Hl | intros c' Hc; inversion Hc; subst; exact Hn].
    - rewrite (notifyComplete_closing (mkInner a b (Some c))) by exact E; simpl.
      destruct H as [Hn | (l & Hl & Hn)].
      + rewrite close_by_identity_null by exact Hn; auto.
      + rewrite close_by_identity_absent with (l := l);
          [auto | exact Hl | intros c' Hc; inversion Hc; subst; exact Hn]. }
  apply Hgone.
  unfold exec; simpl; rewrite notifyNext_closing.
  destruct (contexts s) as [l|] eqn:Hl.
  - destruct (in_dec WindowContext_eq_dec c l) as [Hin|Hnot].
    + pose proof (inv_nodup HI) as Hnd; unfold active in Hnd; rewrite Hl in Hnd.
      apply NoDup_map_inv in Hnd.
      destruct (in_split _ _ Hin) as (l1 & l2 & ->).
      apply NoDup_remove_2 in Hnd.
      rewrite close_by_identity_present with (l1 := l1) (l2 := l2);
        [|exact Hl | intros H; apply Hnd, in_or_app; left; exact H].
      right; exists (l1 ++ l2); split; [reflexivity | exact Hnd].
    + rewrite close_by_identity_absent with (l := l);
        [|exact Hl | intros c' Hc; inversion Hc; subst; exact Hnot].
      right; exists l; auto.
  - rewrite close_by_identity_null by exact Hl; left; exact Hl.
Qed.

(** ** Closing notifiers that act during the subscribe call *)

Lemma deliver_values_on_closed_window c inner rest l s :
  forallb is_value rest = true ->
  contexts s = Some l -> ~ In c l ->
  InnerSubscriber_deliver this_from_inner (TagContext c) inner rest s = (Normal false, s).
Proof.
  intros Hv Hl Hn; induction rest as [|n rest IH]; simpl; [reflexivity|].
  simpl in Hv; apply andb_true_iff in Hv as [Hn1 Hv].
  destruct n as [value| |]; try discriminate.
  unfold bind at 1.
  rewrite close_by_identity_absent with (l := l);
    [|exact Hl | intros c' Hc; inversion Hc; subst; exact Hn].
  apply IH; exact Hv.
Qed.

(** X7. A closing notifier that is exhausted at subscribe time.  When the
    notifier completes during the subscribe call before sending anything,
    [notifyNext] creates the sink and the handle, completes the sink and
    cancels the handle, and only then delivers the window: downstream gets
    a window that is already complete.  The array is as it was, so the
    windows opened earlier are untouched, and whatever the notifier sends
    after its completion is ignored. *)
Theorem exhausted_notifier_gives_completed_window
        (s : State) (value : Any) (rest : Producer) (l : list WindowContext) :
  closingSelector s value = Returns (OnComplete :: rest) ->
  contexts s = Some l ->
  notifyNext TagOpenings value s =
  (Normal tt,
   mkState (Some l) (openSubscription s) (closingSelector s)
           (isStopped s) (closed s) (openingsStopped s)
           (S (S (S (next_addr s))))
           (trace s ++ [NewSubject (next_addr s); NewSubscription (S (next_addr s));
                        WindowComplete (next_addr s);
                        SubscriptionUnsubscribe (S (next_addr s));
                        DestinationNext (next_addr s)])).
Proof.
  intros Hsel Hl.
  rewrite notifyNext_opening_eq with (p := OnComplete :: rest) (l := l) by assumption.
  unfold after_push, subscribeToResult.
  unfold bind at 1; unfold bind at 1; unfold alloc at 1.
  unfold bind at 1; simpl InnerSubscriber_deliver.
  unfold bind at 1; simpl parent_notifyComplete.
  rewrite notifyComplete_untagged
    with (l := l ++ [mkContext (next_addr s) (S (next_addr s))]) by reflexivity.
  unfold ret at 1; unfold ret at 1; simpl inner_closed; cbv iota.
  unfold bind at 1; unfold bind at 1.
  unfold contexts_length, bind at 1, get_contexts, ret.
  cbn [contexts with_next_addr opened].
  replace (Z.of_nat (length (l ++ [mkContext (next_addr s) (S (next_addr s))])) - 1)%Z
    with (Z.of_nat (length l)) by (rewrite length_app; simpl; lia).
  rewrite closeWindow_middle
    with (l1 := l) (c := mkContext (next_addr s) (S (next_addr s))) (l2 := [])
    by reflexivity.
  unfold destination_next, emit; simpl.
  rewrite app_nil_r, <- !app_assoc; reflexivity.
Qed.

(** X8. A closing notifier that sends values during the subscribe call and
    stays open (a notifier that replays its current value, say).  The first
    value closes the new window at once; the later ones find it gone.  The
    handle comes back open, so it is added to the context's handle, which
    is already cancelled, and the window is delivered already complete.
    The array is as it was: no earlier window is touched. *)
Theorem eager_notifier_closes_only_its_window
        (s : State) (value v : Any) (rest : Producer) (l : list WindowContext) :
  closingSelector s value = Returns (OnNext v :: rest) ->
  forallb is_value rest = true ->
  contexts s = Some l ->
  (forall c, In c l -> window c < next_addr s) ->
  notifyNext TagOpenings value s =
  (Normal tt,
   mkState (Some l) (openSubscription s) (closingSelector s)
           (isStopped s) (closed s) (openingsStopped s)
           (S (S (S (next_addr s))))
           (trace s ++ [NewSubject (next_addr s); NewSubscription (S (next_addr s));
                        WindowComplete (next_addr s);
                        SubscriptionUnsubscribe (S (next_addr s));
                        SubscriptionAdd (S (next_addr s)) (S (S (next_addr s)));
                        DestinationNext (next_addr s)])).
Proof.
  intros Hsel Hrest Hl Hfresh.
  set (c := mkContext (next_addr s) (S (next_addr s))).
  assert (~ In c l) as Hc.
  { intros Hin; apply Hfresh in Hin; simpl in Hin; lia. }
  rewrite notifyNext_opening_eq with (p := OnNext v :: rest) (l := l) by assumption.
  unfold after_push, subscribeToResult.
  unfold bind at 1; unfold bind at 1; unfold alloc at 1.
  unfold bind at 1; simpl InnerSubscriber_deliver.
  unfold bind at 1.
  rewrite close_by_identity_present with (l1 := l) (l2 := [])
    by (try exact Hc; reflexivity).
  rewrite deliver_values_on_closed_window with (l := l ++ [])
    by (try exact Hrest; try reflexivity; rewrite app_nil_r; exact Hc).
  unfold ret at 1; simpl inner_closed; cbv iota.
  unfold bind, Subscription_add, destination_next, emit; simpl.
  rewrite app_nil_r, <- !app_assoc; reflexivity.
Qed.

(** X9. A closing notifier that fails during the subscribe call, on a live
    coordinator.  The failure is the Error transition of the whole
    coordinator: every window of the array and the window just created get
    [error] on the sink and [unsubscribe] on the handle, in array order,
    and downstream gets [error].  Back in [notifyNext] the handle is closed
    and [this.contexts] is [null], so reading [this.contexts.length] throws
    a [TypeError]: the call ends in a fault and the new window is never
    delivered. *)
Theorem failing_notifier_terminates_then_throws
        (s : State) (value e : Any) (rest : Producer) (l : list WindowContext) :
  closingSelector s value = Returns (OnError e :: rest) ->
  contexts s = Some l ->
  isStopped s = false -> closed s = false ->
  notifyNext TagOpenings value s =
  (Throw TypeError,
   mkState None (openSubscription s) (closingSelector s) true true true
           (S (S (S (next_addr s))))
           (trace s ++ [NewSubject (next_addr s); NewSubscription (S (next_addr s))] ++
            flat_map (error_calls e) (l ++ [mkContext (next_addr s) (S (next_addr s))]) ++
            [DestinationError e; TeardownChildren])).
Proof.
  intros Hsel Hl Hs Hc.
  rewrite notifyNext_opening_eq with (p := OnError e :: rest) (l := l) by assumption.
  unfold after_push, subscribeToResult.
  unfold bind at 1; unfold bind at 1; unfold alloc at 1.
  unfold bind at 1; simpl InnerSubscriber_deliver.
  unfold bind at 1; simpl parent_notifyError; unfold notifyError.
  rewrite error_eq by assumption.
  unfold ret at 1; unfold ret at 1; simpl inner_closed; cbv iota.
  unfold bind at 1; unfold bind at 1.
  unfold contexts_length, bind at 1, get_contexts; simpl.
  unfold throw, terminated_with, active; simpl.
  rewrite <- !app_assoc; reflexivity.
Qed.

(** ** The coordinator under construction *)

Lemma triple_normal {A} (P : State -> Prop) (m : M A) (Q : A -> State -> Prop) s :
  triple P m Q (fun _ => False) -> P s ->
  exists a s', m s = (Normal a, s') /\ Q a s'.
Proof.
  intros Hm Hs; specialize (Hm s Hs).
  destruct (m s) as [[a|e] s1]; [eauto | contradiction].
Qed.

Lemma steady_close_by_identity sel o x :
  triple (Steady sel o) (i <- contexts_indexOf x ;; closeWindow i)
         (fun _ => Steady sel o) (fun _ => False).
Proof.
  intros s HS; pose proof HS as (Hl & Hs & Hc & Ho & Hsel & Hop & Hlt).
  destruct (contexts s) as [l|] eqn:El; [|contradiction].
  unfold contexts_indexOf, bind, get_contexts; rewrite El; unfold ret.
  destruct (indexOf_range l x) as [-> | Hr]; [exact HS|].
  destruct (@array_split _ l (indexOf l x) Hr) as (l1 & c & l2 & E & Hlen); subst l.
  rewrite <- Hlen, (closeWindow_middle _ _ _ _ El).
  repeat split; simpl; auto; discriminate.
Qed.

Lemma steady_close_last sel o :
  triple (Steady sel o) (len <- contexts_length ;; closeWindow (len - 1)%Z)
         (fun _ => Steady sel o) (fun _ => False).
Proof.
  intros s HS; pose proof HS as (Hl & Hs & Hc & Ho & Hsel & Hop & Hlt).
  destruct (contexts s) as [l|] eqn:El; [|contradiction].
  unfold contexts_length, bind, get_contexts; rewrite El; unfold ret.
  destruct (last_index_range l) as [-> | Hr]; [exact HS|].
  destruct (@array_split _ l _ Hr) as (l1 & c & l2 & E & Hlen); subst l.
  rewrite <- Hlen, (closeWindow_middle _ _ _ _ El).
  repeat split; simpl; auto; discriminate.
Qed.

Lemma steady_notifyComplete sel o inner :
  triple (Steady sel o) (notifyComplete inner) (fun _ => Steady sel o) (fun _ => False).
Proof.
  intros s HS.
  destruct (Nat.eq_dec (inner_addr inner) (openSubscription s)) as [E|E].
  - rewrite notifyComplete_openings by exact E; exact HS.
  - rewrite notifyComplete_closing by exact E.
    apply steady_close_by_identity; exact HS.
Qed.

Lemma steady_emit sel o ev :
  triple (Steady sel o) (emit ev) (fun _ => Steady sel o) (fun _ => False).
Proof. intros s HS; exact HS. Qed.

(** Inside the subscription of a closing notifier that does not fail, the
    coordinator under construction and the constructed one do the same. *)
Lemma steady_deliver sel o c inner result :
  forallb (fun n => negb (is_error n)) result = true ->
  o <> inner ->
  triple (Steady sel o)
         (InnerSubscriber_deliver this_from_inner (TagContext c) inner result)
         (fun _ => Steady sel o) (fun _ => False) /\
  forall s, Steady sel o s ->
    InnerSubscriber_deliver constructing_from_inner (TagContext c) inner result s =
    InnerSubscriber_deliver this_from_inner (TagContext c) inner result s.
Proof.
  intros Hok Hne; induction result as [|n result IH]; simpl.
  - split; [apply triple_ret; auto | reflexivity].
  - simpl in Hok; apply andb_true_iff in Hok as [Hn Hok].
    destruct (IH Hok) as [IH1 IH2].
    destruct n as [value|err|]; [| discriminate |].
    + split.
      * apply triple_bind with (Q := fun _ => Steady sel o);
          [apply steady_close_by_identity | intros _; exact IH1].
      * intros s HS.
        destruct (@triple_normal _ _ _ _ _ (@steady_close_by_identity sel o (Some c)) HS)
          as ([] & s1 & E1 & HS1).
        unfold bind at 1 3; rewrite E1; apply IH2; exact HS1.
    + split.
      * apply triple_bind with (Q := fun _ => Steady sel o);
          [apply steady_notifyComplete|].
        intros _; apply triple_ret; auto.
      * intros s HS; pose proof HS as (_ & _ & _ & _ & _ & Hop & _).
        unfold bind.
        rewrite notifyComplete_closing by (simpl; congruence).
        reflexivity.
Qed.

Lemma Steady_alloc sel o s :
  Steady sel o s -> Steady sel o (with_next_addr (S (next_addr s)) s).
Proof.
  intros (Hl & Hs & Hc & Ho & Hsel & Hop & Hlt); repeat split; simpl; auto.
Qed.

Lemma steady_subscribeToResult sel o c result :
  forallb (fun n => negb (is_error n)) result = true ->
  triple (Steady sel o)
         (subscribeToResult this_from_inner result (TagContext c))
         (fun _ => Steady sel o) (fun _ => False) /\
  forall s, Steady sel o s ->
    subscribeToResult constructing_from_inner result (TagContext c) s =
    subscribeToResult this_from_inner result (TagContext c) s.
Proof.
  intros Hok; split.
  - intros s HS; pose proof HS as (_ & _ & _ & _ & _ & _ & Hlt).
    unfold subscribeToResult, bind at 1, alloc.
    assert (o <> next_addr s) as Hne by lia.
    destruct (@steady_deliver sel o c (next_addr s) result Hok Hne) as [H1 _].
    destruct (@triple_normal _ _ _ _ _ H1 (@Steady_alloc sel o s HS)) as (b & s1 & E1 & HS1).
    unfold bind; rewrite E1; exact HS1.
  - intros s HS; pose proof HS as (_ & _ & _ & _ & _ & _ & Hlt).
    unfold subscribeToResult, bind at 1 3, alloc.
    assert (o <> next_addr s) as Hne by lia.
    destruct (@steady_deliver sel o c (next_addr s) result Hok Hne) as [_ H2].
    unfold bind; rewrite H2 by (apply Steady_alloc; exact HS); reflexivity.
Qed.

Lemma Steady_opened sel o l s :
  Steady sel o s -> Steady sel o (opened l s).
Proof.
  intros (Hl & Hs & Hc & Ho & Hsel & Hop & Hlt); repeat split; simpl; auto.
  discriminate.
Qed.

(** The opening branch with any receiver for the closing notifier. *)
Lemma notifyNext_on_opening_eq this value p l s :
  closingSelector s value = Returns p -> contexts s = Some l ->
  notifyNext_on this TagOpenings value s =
  (innerSubscription <-
     subscribeToResult this p
       (TagContext (mkContext (next_addr s) (S (next_addr s)))) ;;
   (if inner_closed innerSubscription then
      len <- contexts_length ;;
      closeWindow (len - 1)%Z
    else
      Subscription_add (S (next_addr s)) (inner_addr innerSubscription)) ;;
   destination_next (next_addr s)) (opened l s).
Proof.
  intros Hsel Hl; unfold notifyNext_on.
  unfold bind at 1; unfold get_closingSelector; rewrite Hsel.
  unfold bind at 1; unfold new_Subject, bind at 1, alloc at 1.
  unfold bind at 1; unfold emit at 1; unfold ret at 1.
  unfold bind at 1; unfold new_Subscription, bind at 1, alloc at 1.
  unfold bind at 1; unfold emit at 1; unfold ret at 1.
  unfold bind at 1; unfold contexts_push, bind at 1, get_contexts at 1.
  simpl; rewrite Hl; unfold set_contexts.
  unfold opened; simpl.
  rewrite <- app_assoc; reflexivity.
Qed.

(** An opening whose closing notifier does not fail keeps the coordinator
    steady, and is handled during construction as it is afterwards. *)
Lemma steady_opening sel o value p s :
  Steady sel o s -> sel value = Returns p ->
  forallb (fun n => negb (is_error n)) p = true ->
  (exists s', notifyNext TagOpenings value s = (Normal tt, s') /\ Steady sel o s') /\
  parent_notifyNext constructing TagOpenings value s = notifyNext TagOpenings value s.
Proof.
  intros HS Hv Hok; pose proof HS as (Hl & Hs & Hc & Ho & Hsel & Hop & Hlt).
  destruct (contexts s) as [l|] eqn:El; [|contradiction].
  assert (closingSelector s value = Returns p) as Hsel' by (rewrite Hsel; exact Hv).
  set (c := mkContext (next_addr s) (S (next_addr s))).
  destruct (@steady_subscribeToResult sel o c p Hok) as [H1 H2].
  pose proof (@Steady_opened sel o l s HS) as HS3.
  split.
  - rewrite notifyNext_opening_eq with (p := p) (l := l) by assumption.
    unfold after_push.
    destruct (@triple_normal _ _ _ _ _ H1 HS3) as (inner & s1 & E1 & HS1).
    unfold bind at 1; fold c; rewrite E1.
    assert (triple (Steady sel o)
                   (if inner_closed inner
                    then len <- contexts_length ;; closeWindow (len - 1)%Z
                    else Subscription_add (S (next_addr s)) (inner_addr inner))
                   (fun _ => Steady sel o) (fun _ => False)) as Hbranch.
    { destruct (inner_closed inner); [apply steady_close_last | apply steady_emit]. }
    destruct (@triple_normal _ _ _ _ _ Hbranch HS1) as ([] & s2 & E2 & HS2).
    unfold bind at 1; rewrite E2.
    eexists; split; [reflexivity | exact HS2].
  - change (parent_notifyNext constructing TagOpenings value s)
      with (notifyNext_on constructing_from_inner TagOpenings value s).
    change (notifyNext TagOpenings value s)
      with (notifyNext_on this_from_inner TagOpenings value s).
    rewrite !notifyNext_on_opening_eq with (p := p) (l := l) by assumption.
    unfold bind at 1 4; fold c.
    rewrite H2 by exact HS3; reflexivity.
Qed.

Lemma with_openingsStopped_same (s : State) :
  with_openingsStopped (openingsStopped s) s = s.
Proof. destruct s; reflexivity. Qed.

Lemma set_openSubscription_same (s : State) :
  set_openSubscription (openSubscription s) s = (Normal tt, s).
Proof. destruct s; reflexivity. Qed.

(** What the openings send during construction is handled as the same
    inputs are after it, as long as the coordinator stays live. *)
Lemma construct_deliver sel o openings : forall s,
  calm_openings sel openings = true -> Steady sel o s ->
  exists b s',
    InnerSubscriber_deliver constructing TagOpenings o openings s = (Normal b, s') /\
    openSubscription s' = o /\
    with_openingsStopped (b || closed s') s' = run s (openings_inputs openings).
Proof.
  induction openings as [|n rest IH]; intros s Hcalm HS;
    pose proof HS as (Hl & Hs & Hc & Ho & Hsel & Hop & Hlt).
  - exists false, s; simpl; repeat split; auto.
    rewrite Hc, <- Ho; apply with_openingsStopped_same.
  - simpl in Hcalm; apply andb_true_iff in Hcalm as [Hn Hcalm].
    destruct n as [value|err|]; cbn [InnerSubscriber_deliver openings_inputs].
    + destruct (sel value) as [p|e] eqn:Hv; [|discriminate].
      destruct (steady_opening value HS Hv Hn) as [(s1 & E1 & HS1) Hsame].
      unfold bind at 1; rewrite Hsame, E1.
      destruct (IH s1 Hcalm HS1) as (b & s' & E & Hop' & Hrun).
      exists b, s'; repeat split; auto.
      rewrite Hrun; unfold run at 2; cbn [fold_left].
      unfold exec at 2; cbn [step]; unfold openings_InnerSubscriber;
        rewrite Ho, E1; reflexivity.
    + unfold bind, notifyError; rewrite error_eq by assumption.
      eexists; eexists; split; [reflexivity|]; split; [exact Hop|].
      unfold run; cbn [fold_left]; unfold exec; cbn [step].
      unfold openings_InnerSubscriber; rewrite Ho.
      unfold bind, set_openingsStopped, notifyError.
      rewrite error_eq by assumption; reflexivity.
    + destruct (contexts s) as [l|] eqn:El; [|contradiction].
      unfold bind at 1.
      change (parent_notifyComplete constructing (mkInner o false None) s)
        with ((i <- contexts_indexOf None ;; closeWindow i) s).
      rewrite close_by_identity_absent with (l := l);
        [|exact El | intros c Hc'; discriminate].
      exists true, s; repeat split; auto.
      unfold run; cbn [fold_left]; unfold exec; cbn [step].
      unfold openings_InnerSubscriber; rewrite Ho.
      unfold bind, set_openingsStopped.
      rewrite notifyComplete_openings by reflexivity; reflexivity.
Qed.

(** The constructor over calm openings, as a run. *)
Lemma WindowToggleSubscriber_new_run
        (sel : Any -> SelectorResult) (openings : Producer) :
  calm_openings sel openings = true ->
  WindowToggleSubscriber_new sel openings =
  (Normal tt, run (initial sel) (openings_inputs openings)).
Proof.
  intros Hcalm.
  assert (Steady sel 0 (initial sel)) as HS
      by (repeat split; simpl; auto; discriminate).
  destruct (construct_deliver openings Hcalm HS) as (b & s' & E & Hop & Hrun).
  unfold WindowToggleSubscriber_new, subscribeToResult.
  unfold bind at 1; unfold bind at 1; unfold alloc at 1.
  cbn [next_addr contexts openSubscription closingSelector isStopped closed
       openingsStopped trace with_next_addr].
  change (with_next_addr 1 (mkState (Some []) 0 sel false false false 0 []))
    with (initial sel).
  unfold bind at 1; rewrite E.
  unfold ret at 1; unfold bind at 1; simpl inner_addr.
  rewrite <- Hop at 1; rewrite set_openSubscription_same.
  unfold add_openSubscription; simpl inner_closed.
  rewrite Hrun; reflexivity.
Qed.

(** X10. Openings that send during the constructor's own subscribe call
    are handled as if they had arrived after construction.  As long as the
    coordinator stays live while they send values (the selector returns,
    and the closing notifier does not fail at once), the constructor
    returns normally and leaves the coordinator in the very state, trace
    included, that the same openings reach when delivered one by one to a
    coordinator built over silent openings; that [openSubscription] is not
    yet assigned while they are handled makes no difference. *)
Theorem construction_handles_openings_as_a_run
        (sel : Any -> SelectorResult) (openings : Producer) :
  calm_openings sel openings = true ->
  WindowToggleSubscriber_new sel openings =
  (Normal tt, run (initial sel) (openings_inputs openings)).
Proof. apply WindowToggleSubscriber_new_run. Qed.

Lemma complete_normal s : fst (complete s) = Normal tt.
Proof.
  destruct (isStopped s) eqn:Hs; [rewrite complete_stopped by exact Hs; reflexivity|].
  destruct (closed s) eqn:Hc.
  - unfold complete; rewrite Hs; unfold bind, set_isStopped.
    rewrite _complete_closed by (simpl; auto); reflexivity.
  - rewrite complete_eq by assumption; reflexivity.
Qed.

Lemma source_subscribe_run source : forall s,
  source_subscribe source s = (Normal tt, run s (source_inputs source)).
Proof.
  induction source as [|n rest IH]; intros s; simpl; [reflexivity|].
  destruct n as [value|err|]; simpl.
  - unfold bind, exec; cbn [step].
    unfold next; destruct (isStopped s); [apply IH|].
    rewrite _next_eq; apply IH.
  - destruct (error_shape err s) as (s' & E & _).
    unfold exec; cbn [step]; rewrite E; reflexivity.
  - pose proof (complete_normal s) as H.
    unfold exec; cbn [step]; destruct (complete s) as [[[]|e] s']; simpl in *;
      [reflexivity | discriminate].
Qed.

(** [call] over calm openings, as a run. *)
Lemma call_run
        (sel : Any -> SelectorResult) (openings : Producer)
        (source : list SourceNotification) :
  calm_openings sel openings = true ->
  call (windowToggle openings sel) source =
  (Normal tt,
   run (initial sel) (openings_inputs openings ++ source_inputs source)).
Proof.
  intros Hcalm; unfold call, windowToggle; simpl.
  rewrite WindowToggleSubscriber_new_run by exact Hcalm.
  rewrite source_subscribe_run, run_app; reflexivity.
Qed.

(** X11. The openings are subscribed before the source.  [call] builds the
    coordinator, and with it subscribes to the openings, before it
    subscribes to the source; so for openings that keep the coordinator
    live, the operator over a source and openings that both send during
    subscription ends in the state of the run that handles first all that
    the openings send and then all that the source sends: a window opened
    at subscription misses no source value. *)
Theorem operator_subscribes_openings_before_source
        (sel : Any -> SelectorResult) (openings : Producer)
        (source : list SourceNotification) :
  calm_openings sel openings = true ->
  call (windowToggle openings sel) source =
  (Normal tt,
   run (initial sel) (openings_inputs openings ++ source_inputs source)).
Proof. apply call_run. Qed.

Lemma source_inputs_values_then_complete (vs : list T) :
  source_inputs (map SourceSendsNext vs ++ [SourceSendsComplete]) =
  map SourceNext vs ++ [SourceComplete].
Proof. induction vs as [|v vs IH]; simpl; [|rewrite IH]; reflexivity. Qed.

Lemma fan_out_to_one (c : WindowContext) (vs : list T) :
  flat_map (fun value => map (fun c' => WindowNext (window c') value) [c]) vs =
  map (WindowNext (window c)) vs.
Proof. induction vs as [|v vs IH]; simpl; [reflexivity | f_equal; exact IH]. Qed.

(** X12. One window over a whole source.  Let the openings send one value
    at subscription, for which the closing notifier stays silent, and let
    the source send the values [vs] and complete, all at subscription.
    Then downstream is handed the window first; the window's sink receives
    every value of the source in order and is completed, its handle is
    cancelled, and only then is downstream completed. *)
Theorem window_opened_at_subscription_carries_the_source
        (sel : Any -> SelectorResult) (opening : Any) (vs : list T) :
  sel opening = Returns [] ->
  call (windowToggle [OnNext opening] sel)
       (map SourceSendsNext vs ++ [SourceSendsComplete]) =
  (Normal tt,
   mkState None 0 sel true true true 4
           ([NewSubject 1; NewSubscription 2; SubscriptionAdd 2 3; DestinationNext 1] ++
            map (WindowNext 1) vs ++
            [WindowComplete 1; SubscriptionUnsubscribe 2;
             DestinationComplete; TeardownChildren])).
Proof.
  intros Hsel.
  rewrite call_run by (simpl; rewrite Hsel; reflexivity).
  rewrite source_inputs_values_then_complete.
  cbn [openings_inputs app].
  change (run (initial sel)
              (OpeningsNext opening :: map SourceNext vs ++ [SourceComplete]))
    with (run (exec (initial sel) (OpeningsNext opening))
              (map SourceNext vs ++ [SourceComplete])).
  unfold exec at 1; cbn [step]; unfold openings_InnerSubscriber.
  cbn [initial openingsStopped].
  rewrite notifyNext_opening_eq with (p := []) (l := []) by (try reflexivity; exact Hsel).
  set (s1 := snd (after_push [] (next_addr (initial sel)) (S (next_addr (initial sel)))
                             (opened [] (initial sel)))).
  rewrite run_app, run_source_values by reflexivity.
  unfold run; cbn [fold_left]; unfold exec; cbn [step].
  rewrite complete_eq by reflexivity.
  unfold s1; simpl.
  rewrite (fan_out_to_one (mkContext 1 2)); simpl.
  rewrite <- ?app_assoc; reflexivity.
Qed.

(** ** Construction over any openings *)

(** The opening branch with any receiver, on a selector fault and on the
    [null] array. *)
Lemma notifyNext_on_selector_throws this value e s :
  closingSelector s value = Throws e ->
  notifyNext_on this TagOpenings value s = error e s.
Proof.
  intros H; unfold notifyNext_on.
  unfold bind at 1; unfold get_closingSelector; rewrite H; reflexivity.
Qed.

Lemma notifyNext_on_opening_null this value p s :
  closingSelector s value = Returns p -> contexts s = None ->
  notifyNext_on this TagOpenings value s = (Throw TypeError, orphaned s).
Proof.
  intros Hsel Hl; unfold notifyNext_on.
  unfold bind at 1; unfold get_closingSelector; rewrite Hsel.
  unfold bind at 1; unfold new_Subject, bind at 1, alloc at 1.
  unfold bind at 1; unfold emit at 1; unfold ret at 1.
  unfold bind at 1; unfold new_Subscription, bind at 1, alloc at 1.
  unfold bind at 1; unfold emit at 1; unfold ret at 1.
  unfold bind at 1; unfold contexts_push, bind at 1, get_contexts at 1.
  simpl; rewrite Hl; unfold throw, orphaned, with_trace, with_next_addr; simpl.
  rewrite <- app_assoc; reflexivity.
Qed.

Lemma close_by_identity_openSubscription x s :
  openSubscription (snd ((i <- contexts_indexOf x ;; closeWindow i) s)) =
  openSubscription s.
Proof.
  destruct (contexts s) as [l|] eqn:El;
    [|rewrite close_by_identity_null by exact El; reflexivity].
  unfold contexts_indexOf, bind, get_contexts; rewrite El; unfold ret.
  destruct (indexOf_range l x) as [-> | Hr]; [reflexivity|].
  destruct (@array_split _ l (indexOf l x) Hr) as (l1 & c & l2 & E & Hlen); subst l.
  rewrite <- Hlen, (closeWindow_middle _ _ _ _ El); reflexivity.
Qed.

(** Inside the subscription of a closing notifier the coordinator under
    construction and the constructed one do the same, whatever the
    notifier sends: the inner subscriber is a new object, so it is not
    [openSubscription], assigned or not. *)
Lemma constructing_deliver_eq c inner result : forall s,
  openSubscription s <> inner ->
  InnerSubscriber_deliver constructing_from_inner (TagContext c) inner result s =
  InnerSubscriber_deliver this_from_inner (TagContext c) inner result s.
Proof.
  induction result as [|n result IH]; intros s Hne; [reflexivity|].
  destruct n as [value|err|]; cbn [InnerSubscriber_deliver].
  - change (parent_notifyNext constructing_from_inner (TagContext c) value)
      with (i <- contexts_indexOf (Some c) ;; closeWindow i).
    change (parent_notifyNext this_from_inner (TagContext c) value)
      with (i <- contexts_indexOf (Some c) ;; closeWindow i).
    pose proof (close_by_identity_openSubscription (Some c) s) as Hop.
    set (m := i <- contexts_indexOf (Some c) ;; closeWindow i) in *.
    unfold bind; destruct (m s) as [[[]|e] s1]; [|reflexivity].
    apply IH; simpl in Hop; rewrite Hop; exact Hne.
  - reflexivity.
  - unfold bind.
    change (parent_notifyComplete constructing_from_inner (mkInner inner false None) s)
      with ((i <- contexts_indexOf None ;; closeWindow i) s).
    change (parent_notifyComplete this_from_inner (mkInner inner false None) s)
      with (notifyComplete (mkInner inner false None) s).
    rewrite notifyComplete_closing by (simpl; congruence).
    reflexivity.
Qed.

(** An opening is handled during construction as it is afterwards. *)
Lemma constructing_opening_eq value s :
  openSubscription s < next_addr s ->
  parent_notifyNext constructing TagOpenings value s = notifyNext TagOpenings value s.
Proof.
  intros Hlt.
  change (parent_notifyNext constructing TagOpenings value s)
    with (notifyNext_on constructing_from_inner TagOpenings value s).
  change (notifyNext TagOpenings value s)
    with (notifyNext_on this_from_inner TagOpenings value s).
  destruct (closingSelector s value) as [p|e] eqn:Hsel.
  - destruct (contexts s) as [l|] eqn:El.
    + rewrite !notifyNext_on_opening_eq with (p := p) (l := l) by assumption.
      unfold bind at 1 4, subscribeToResult.
      unfold bind at 1 4; unfold alloc.
      unfold bind at 1 4.
      rewrite constructing_deliver_eq by (simpl; lia).
      reflexivity.
    + rewrite !notifyNext_on_opening_null with (p := p) by assumption.
      reflexivity.
  - rewrite !notifyNext_on_selector_throws with (e := e) by assumption.
    reflexivity.
Qed.


(** What the methods on the opening path leave alone: the selector, the
    openings subscription, and, unless the array ends up [null], the
    openings themselves. *)
Lemma building_close_by_identity sel o x :
  triple (Building sel o) (i <- contexts_indexOf x ;; closeWindow i)
         (fun _ => Building sel o) (Building sel o).
Proof.
  intros s HB.
  destruct (contexts s) as [l|] eqn:El;
    [|rewrite close_by_identity_null by exact El; exact HB].
  unfold contexts_indexOf, bind, get_contexts; rewrite El; unfold ret.
  destruct (indexOf_range l x) as [-> | Hr]; [exact HB|].
  destruct (@array_split _ l (indexOf l x) Hr) as (l1 & c & l2 & E & Hlen); subst l.
  rewrite <- Hlen, (closeWindow_middle _ _ _ _ El).
  destruct HB as (Hsel & Hop & Hlt & Ho); repeat split; simpl; auto.
  intros _; apply Ho; rewrite El; discriminate.
Qed.

Lemma building_close_last sel o :
  triple (Building sel o) (len <- contexts_length ;; closeWindow (len - 1)%Z)
         (fun _ => Building sel o) (Building sel o).
Proof.
  intros s HB.
  unfold contexts_length, bind, get_contexts.
  destruct (contexts s) as [l|] eqn:El; [|exact HB]; unfold ret.
  destruct (last_index_range l) as [-> | Hr]; [exact HB|].
  destruct (@array_split _ l _ Hr) as (l1 & c & l2 & E & Hlen); subst l.
  rewrite <- Hlen, (closeWindow_middle _ _ _ _ El).
  destruct HB as (Hsel & Hop & Hlt & Ho); repeat split; simpl; auto.
  intros _; apply Ho; rewrite El; discriminate.
Qed.

Lemma building_error sel o err :
  triple (Building sel o) (error err) (fun _ => Building sel o) (Building sel o).
Proof.
  intros s HB; pose proof HB as (Hsel & Hop & Hlt & Ho).
  destruct (isStopped s) eqn:Hs; [rewrite error_stopped by exact Hs; exact HB|].
  unfold error; rewrite Hs; unfold bind, set_isStopped.
  destruct (closed s) eqn:Hc.
  - rewrite _error_closed by (simpl; auto).
    repeat split; simpl; auto; contradiction.
  - rewrite _error_eq by (simpl; auto).
    repeat split; simpl; auto; contradiction.
Qed.

Lemma building_notifyComplete sel o inner :
  triple (Building sel o) (notifyComplete inner)
         (fun _ => Building sel o) (Building sel o).
Proof.
  intros s HB.
  destruct (Nat.eq_dec (inner_addr inner) (openSubscription s)) as [E|E].
  - rewrite notifyComplete_openings by exact E; exact HB.
  - rewrite notifyComplete_closing by exact E.
    apply building_close_by_identity; exact HB.
Qed.

Lemma building_emit sel o ev :
  triple (Building sel o) (emit ev) (fun _ => Building sel o) (Building sel o).
Proof. intros s HB; exact HB. Qed.

Lemma building_deliver sel o c inner result :
  triple (Building sel o)
         (InnerSubscriber_deliver this_from_inner (TagContext c) inner result)
         (fun _ => Building sel o) (Building sel o).
Proof.
  induction result as [|n result IH]; simpl.
  - apply triple_ret; auto.
  - destruct n as [value|err|].
    + apply triple_bind with (Q := fun _ => Building sel o);
        [apply building_close_by_identity | intros _; exact IH].
    + apply triple_bind with (Q := fun _ => Building sel o);
        [apply building_error | intros _; apply triple_ret; auto].
    + apply triple_bind with (Q := fun _ => Building sel o);
        [apply building_notifyComplete | intros _; apply triple_ret; auto].
Qed.

Lemma building_after_push sel o p w sub :
  triple (Building sel o) (after_push p w sub)
         (fun _ => Building sel o) (Building sel o).
Proof.
  unfold after_push, subscribeToResult.
  apply triple_bind with (Q := fun _ => Building sel o).
  - apply triple_bind with (Q := fun _ => Building sel o).
    + intros s (Hsel & Hop & Hlt & Ho); repeat split; simpl; auto.
    + intros inner.
      apply triple_bind with (Q := fun _ => Building sel o);
        [apply building_deliver | intros b; apply triple_ret; auto].
  - intros inner.
    apply triple_bind with (Q := fun _ => Building sel o);
      [|intros _; apply building_emit].
    destruct (inner_closed inner); [apply building_close_last | apply building_emit].
Qed.

Lemma building_opening sel o value :
  triple (Building sel o) (notifyNext TagOpenings value)
         (fun _ => Building sel o) (Building sel o).
Proof.
  intros s HB; pose proof HB as (Hsel & Hop & Hlt & Ho).
  destruct (closingSelector s value) as [p|e] eqn:Hv.
  - destruct (contexts s) as [l|] eqn:El.
    + rewrite notifyNext_opening_eq with (p := p) (l := l) by assumption.
      apply building_after_push.
      repeat split; simpl; auto.
      intros _; apply Ho; discriminate.
    + change (notifyNext TagOpenings value s)
        with (notifyNext_on this_from_inner TagOpenings value s).
      rewrite notifyNext_on_opening_null with (p := p) by assumption.
      repeat split; simpl; auto; try lia.
  - rewrite notifyNext_selector_throws with (e := e) by assumption.
    apply building_error; exact HB.
Qed.

(** Once the array is [null], what the openings still send during the
    subscribe call of the constructor finds a coordinator that does
    nothing, until one of them makes it fault. *)
Lemma deliver_terminated o openings s :
  contexts s = None -> isStopped s = true ->
  (exists b, InnerSubscriber_deliver constructing TagOpenings o openings s =
             (Normal b, s)) \/
  InnerSubscriber_deliver constructing TagOpenings o openings s = (Throw TypeError, s) \/
  InnerSubscriber_deliver constructing TagOpenings o openings s =
    (Throw TypeError, orphaned s).
Proof.
  intros Hn Hs; induction openings as [|n rest IH]; cbn [InnerSubscriber_deliver].
  - left; exists false; reflexivity.
  - destruct n as [value|err|].
    + change (parent_notifyNext constructing TagOpenings value)
        with (notifyNext_on constructing_from_inner TagOpenings value).
      unfold bind at 1 2 3.
      destruct (closingSelector s value) as [p|e] eqn:Hv.
      * rewrite notifyNext_on_opening_null with (p := p) by assumption.
        right; right; reflexivity.
      * rewrite notifyNext_on_selector_throws with (e := e) by assumption.
        rewrite error_stopped by exact Hs; exact IH.
    + left; exists true; unfold bind.
      change (parent_notifyError constructing err s) with (error err s).
      rewrite error_stopped by exact Hs; reflexivity.
    + right; left; unfold bind.
      change (parent_notifyComplete constructing (mkInner o false None) s)
        with ((i <- contexts_indexOf None ;; closeWindow i) s).
      rewrite close_by_identity_null by exact Hn; reflexivity.
Qed.


Lemma terminated_orphaned s : terminated s -> terminated (orphaned s).
Proof. intros H; exact H. Qed.

Lemma run_cons s i inputs : run s (i :: inputs) = run (exec s i) inputs.
Proof. reflexivity. Qed.

(** What the openings send during the subscribe call of the constructor
    is handled as the same inputs are by a constructed coordinator, for as
    long as the array is not [null]; after that at most one more thing
    happens: an opening for which the selector returns creates a sink and a
    handle, and faults. *)
Lemma deliver_cases sel o openings : forall s,
  Building sel o s -> Orderly s -> contexts s <> None ->
  exists ins,
    (exists b s1,
        InnerSubscriber_deliver constructing TagOpenings o openings s = (Normal b, s1) /\
        openSubscription s1 = o /\
        with_openingsStopped (b || closed s1) s1 = run s ins) \/
    InnerSubscriber_deliver constructing TagOpenings o openings s =
      (Throw TypeError, run s ins) \/
    (contexts (run s ins) = None /\
     InnerSubscriber_deliver constructing TagOpenings o openings s =
       (Throw TypeError, orphaned (run s ins))).
Proof.
  induction openings as [|n rest IH]; intros s HB HO Hl;
    pose proof HB as (Hsel & Hop & Hlt & Ho);
    destruct (Live_flags (conj HO Hl)) as [Hs Hc];
    specialize (Ho Hl).
  - exists []; left; exists false, s; simpl; repeat split; auto.
    rewrite Hc, <- Ho; apply with_openingsStopped_same.
  - destruct n as [value|err|]; cbn [InnerSubscriber_deliver].
    + assert (exec s (OpeningsNext value) = snd (notifyNext TagOpenings value s)) as Hexec.
      { unfold exec; cbn [step]; unfold openings_InnerSubscriber; rewrite Ho; reflexivity. }
      pose proof (Orderly_exec (OpeningsNext value) HO) as HO1.
      pose proof (building_opening value HB) as HB1.
      unfold bind at 1 2 3; rewrite constructing_opening_eq by lia.
      rewrite Hexec in HO1.
      destruct (notifyNext TagOpenings value s) as [[[]|e] s1]; simpl in *.
      * destruct (contexts s1) as [l1|] eqn:El1.
        -- assert (contexts s1 <> None) as Hl1 by (rewrite El1; discriminate).
           destruct (IH s1 HB1 HO1 Hl1) as [ins H].
           exists (OpeningsNext value :: ins); rewrite run_cons, Hexec; exact H.
        -- destruct (Orderly_null_terminated HO1 El1) as (_ & Hs1 & Hc1 & Ho1).
           exists [OpeningsNext value]; rewrite run_cons, Hexec; simpl.
           destruct (@deliver_terminated o rest s1 El1 Hs1) as [[b E] | [E | E]].
           ++ left; exists b, s1; split; [exact E|]; split; [apply HB1|].
              rewrite Hc1, orb_true_r, <- Ho1; apply with_openingsStopped_same.
           ++ right; left; exact E.
           ++ right; right; split; [exact El1 | exact E].
      * exists [OpeningsNext value]; rewrite run_cons, Hexec; simpl.
        destruct e; right; left; reflexivity.
    + exists [OpeningsError err]; left.
      unfold bind.
      change (parent_notifyError constructing err s) with (error err s).
      rewrite error_eq by assumption.
      eexists; eexists; split; [reflexivity|]; split; [exact Hop|].
      unfold run; cbn [fold_left]; unfold exec; cbn [step].
      unfold openings_InnerSubscriber; rewrite Ho.
      unfold bind, set_openingsStopped, notifyError.
      rewrite error_eq by assumption; reflexivity.
    + destruct (contexts s) as [l|] eqn:El; [|contradiction].
      exists [OpeningsComplete]; left.
      unfold bind at 1.
      change (parent_notifyComplete constructing (mkInner o false None) s)
        with ((i <- contexts_indexOf None ;; closeWindow i) s).
      rewrite close_by_identity_absent with (l := l);
        [|exact El | intros c Hc'; discriminate].
      exists true, s; repeat split; auto.
      unfold run; cbn [fold_left]; unfold exec; cbn [step].
      unfold openings_InnerSubscriber; rewrite Ho.
      unfold bind, set_openingsStopped.
      rewrite notifyComplete_openings by reflexivity; reflexivity.
Qed.

(** The constructor, once the openings' inner subscriber is allocated. *)
Lemma WindowToggleSubscriber_new_eq
      (sel : Any -> SelectorResult) (openings : Producer) :
  WindowToggleSubscriber_new sel openings =
  (b <- InnerSubscriber_deliver constructing TagOpenings 0 openings ;;
   set_openSubscription 0 ;;
   add_openSubscription (mkInner 0 b None)) (initial sel).
Proof.
  unfold WindowToggleSubscriber_new, subscribeToResult, bind, alloc; simpl.
  change (with_next_addr 1 (mkState (Some []) 0 sel false false false 0 []))
    with (initial sel).
  destruct (InnerSubscriber_deliver constructing TagOpenings 0 openings (initial sel))
    as [[b|e] s1]; reflexivity.
Qed.

(** The constructor over any openings leaves the coordinator in a state
    that a constructed coordinator reaches from silent openings, or in
    such a state, terminated, with one more sink and handle that are in no
    context. *)
Lemma WindowToggleSubscriber_new_cases
      (sel : Any -> SelectorResult) (openings : Producer) :
  exists ins,
    snd (WindowToggleSubscriber_new sel openings) = run (initial sel) ins \/
    (contexts (run (initial sel) ins) = None /\
     snd (WindowToggleSubscriber_new sel openings) = orphaned (run (initial sel) ins)).
Proof.
  assert (Building sel 0 (initial sel)) as HB
      by (repeat split; simpl; auto).
  assert (contexts (initial sel) <> None) as Hl by discriminate.
  rewrite WindowToggleSubscriber_new_eq.
  destruct (deliver_cases openings HB (Orderly_initial sel) Hl)
    as [ins [(b & s1 & E & Hop & Hrun) | [E | [Hn E]]]];
    exists ins; unfold bind at 1 3; rewrite E.
  - left.
    unfold bind; rewrite <- Hop at 1; rewrite set_openSubscription_same.
    unfold add_openSubscription; simpl inner_closed.
    rewrite Hrun; reflexivity.
  - left; reflexivity.
  - right; split; [exact Hn | reflexivity].
Qed.

(** The same for the whole life of a coordinator. *)
Lemma lifetime_cases (sel : Any -> SelectorResult) (openings : Producer)
      (inputs : list Input) :
  exists ins,
    lifetime sel openings inputs = run (initial sel) ins \/
    (contexts (run (initial sel) ins) = None /\
     lifetime sel openings inputs = orphaned (run (initial sel) ins)).
Proof.
  unfold lifetime.
  destruct (WindowToggleSubscriber_new_cases sel openings) as [ins [E | [Hn E]]];
    rewrite E.
  - exists (ins ++ inputs); left; rewrite run_app; reflexivity.
  - exists ins; right; split; [exact Hn|].
    apply run_terminated, terminated_orphaned, Orderly_null_terminated;
      [apply Orderly_run, Orderly_initial | exact Hn].
Qed.


(** ** Calls on a terminated coordinator *)

Lemma calls_on_terminated (s : State) :
  contexts s = None -> isStopped s = true -> closed s = true ->
  (forall value, next value s = (Normal tt, s)) /\
  (forall err, error err s = (Normal tt, s)) /\
  complete s = (Normal tt, s) /\
  unsubscribe s = (Normal tt, s) /\
  (forall err, notifyError err s = (Normal tt, s)) /\
  (forall c value, notifyNext (TagContext c) value s = (Throw TypeError, s)) /\
  (forall inner, inner_addr inner <> openSubscription s ->
                 notifyComplete inner s = (Throw TypeError, s)) /\
  (forall inner, notifyComplete_constructing inner s = (Throw TypeError, s)) /\
  (forall value e, closingSelector s value = Throws e ->
                   notifyNext TagOpenings value s = (Normal tt, s)) /\
  (forall value p, closingSelector s value = Returns p ->
                   notifyNext TagOpenings value s = (Throw TypeError, orphaned s) /\
                   parent_notifyNext constructing TagOpenings value s =
                     (Throw TypeError, orphaned s)).
Proof.
  intros Hn Hs Hc.
  split; [intros value; unfold next; rewrite Hs; reflexivity|].
  split; [intros err; apply error_stopped; exact Hs|].
  split; [apply complete_stopped; exact Hs|].
  split; [apply unsubscribe_closed; exact Hc|].
  split; [intros err; apply error_stopped; exact Hs|].
  split; [intros c value; rewrite notifyNext_closing;
          apply close_by_identity_null; exact Hn|].
  split; [intros inner Hne; rewrite notifyComplete_closing by exact Hne;
          apply close_by_identity_null; exact Hn|].
  split; [intros inner; apply close_by_identity_null; exact Hn|].
  split.
  - intros value e Hv; rewrite notifyNext_selector_throws with (e := e) by exact Hv.
    apply error_stopped; exact Hs.
  - intros value p Hv; split.
    + change (notifyNext TagOpenings value s)
        with (notifyNext_on this_from_inner TagOpenings value s).
      apply notifyNext_on_opening_null with (p := p); assumption.
    + change (parent_notifyNext constructing TagOpenings value s)
        with (notifyNext_on constructing_from_inner TagOpenings value s).
      apply notifyNext_on_opening_null with (p := p); assumption.
Qed.

(** Whenever the array is [null] the coordinator is stopped and closed,
    at every point of its life. *)
Lemma lifetime_null_flags (sel : Any -> SelectorResult) (openings : Producer)
      (inputs : list Input) :
  contexts (lifetime sel openings inputs) = None ->
  isStopped (lifetime sel openings inputs) = true /\
  closed (lifetime sel openings inputs) = true.
Proof.
  destruct (lifetime_cases sel openings inputs) as [ins [-> | [Hn ->]]];
    pose proof (Orderly_run ins (Orderly_initial sel)) as HO.
  - intros Hn; destruct (Orderly_null_terminated HO Hn) as (_ & Hs & Hc & _); auto.
  - intros _; destruct (Orderly_null_terminated HO Hn) as (_ & Hs & Hc & _); auto.
Qed.

(** X1. What a terminated coordinator still does.  At every point of the
    life of a coordinator, construction included, once the array is [null]
    the coordinator is stopped and closed; the public methods [next],
    [error], [complete] and [unsubscribe] and the callback [notifyError]
    then return without doing anything.  The callbacks [notifyNext] and
    [notifyComplete] have no guard: each reads [this.contexts] and ends in
    a [TypeError]; for a notification of a closing notifier nothing has
    changed by then, but for an opening on which the selector returns the
    sink and the handle have been created already, and they stay in no
    context.  No call reaches a sink, a handle or downstream.  This is
    what the openings find when they go on sending during the subscribe
    call of the constructor after the coordinator has terminated. *)
Theorem terminated_coordinator_returns_or_faults
        (sel : Any -> SelectorResult) (openings : Producer) (inputs : list Input) :
  contexts (lifetime sel openings inputs) = None ->
  isStopped (lifetime sel openings inputs) = true /\
  closed (lifetime sel openings inputs) = true /\
  (forall value,
      next value (lifetime sel openings inputs) =
        (Normal tt, lifetime sel openings inputs)) /\
  (forall err,
      error err (lifetime sel openings inputs) =
        (Normal tt, lifetime sel openings inputs)) /\
  complete (lifetime sel openings inputs) = (Normal tt, lifetime sel openings inputs) /\
  unsubscribe (lifetime sel openings inputs) =
    (Normal tt, lifetime sel openings inputs) /\
  (forall err,
      notifyError err (lifetime sel openings inputs) =
        (Normal tt, lifetime sel openings inputs)) /\
  (forall c value,
      notifyNext (TagContext c) value (lifetime sel openings inputs) =
        (Throw TypeError, lifetime sel openings inputs)) /\
  (forall inner,
      inner_addr inner <> openSubscription (lifetime sel openings inputs) ->
      notifyComplete inner (lifetime sel openings inputs) =
        (Throw TypeError, lifetime sel openings inputs)) /\
  (forall inner,
      notifyComplete_constructing inner (lifetime sel openings inputs) =
        (Throw TypeError, lifetime sel openings inputs)) /\
  (forall value e,
      closingSelector (lifetime sel openings inputs) value = Throws e ->
      notifyNext TagOpenings value (lifetime sel openings inputs) =
        (Normal tt, lifetime sel openings inputs)) /\
  (forall value p,
      closingSelector (lifetime sel openings inputs) value = Returns p ->
      notifyNext TagOpenings value (lifetime sel openings inputs) =
        (Throw TypeError, orphaned (lifetime sel openings inputs)) /\
      parent_notifyNext constructing TagOpenings value (lifetime sel openings inputs) =
        (Throw TypeError, orphaned (lifetime sel openings inputs))).
Proof.
  intros Hn.
  destruct (lifetime_null_flags sel openings inputs Hn) as [Hs Hc].
  split; [exact Hs|]; split; [exact Hc|].
  apply calls_on_terminated; assumption.
Qed.

(** ** Sinks and handles over the whole life *)

Lemma sink_state_Fresh_calls w tr :
  sink_state w tr = Fresh -> forall ev, In ev tr -> sink_call w ev = false.
Proof.
  induction tr as [|e tr IH] using rev_ind; intros H ev Hin.
  - contradiction.
  - rewrite sink_state_snoc in H.
    assert (sink_state w tr = Fresh /\ sink_call w e = false) as (Hst & Hce).
    { destruct e; simpl in *; auto;
        destruct (Nat.eqb_spec w0 w);
        destruct (sink_state w tr); try discriminate; auto. }
    apply in_app_or in Hin as [Hin|[<-|[]]]; auto.
Qed.

(** Between two inputs of a constructed coordinator a sink that was
    created is in the array, or its handle has been cancelled. *)
Lemma created_sink_of_run sel ins w :
  In (NewSubject w) (trace (run (initial sel) ins)) ->
  In w (map window (active (run (initial sel) ins))) \/
  In (SubscriptionUnsubscribe (S w)) (trace (run (initial sel) ins)).
Proof.
  intros Hnew.
  pose proof (Orderly_run ins (Orderly_initial sel)) as HO.
  pose proof (Inv_run ins (Inv_initial sel)) as HI.
  set (s := run (initial sel) ins) in *.
  destruct (in_dec Nat.eq_dec w (map window (active s))) as [Hin|Hnot]; [left; exact Hin|].
  right; destruct (inv_rest HI w Hnot) as [Hf|Ht].
  - apply sink_state_Fresh in Hf as [Hf _]; contradiction.
  - apply sink_state_Terminated in Ht as (ev & Hev & Hte).
    apply (ord_cancelled HO w ev); assumption.
Qed.

(** X2. A sink and its handle go together, over the whole life of a
    coordinator: its construction over openings that send anything at all
    during the subscribe call, and any inputs after it.  Every sink that
    was created has its handle, created right after it; every context of
    the array holds such a pair; a sink that has received its terminal call
    has had its handle cancelled.  A sink that was created is in the
    array, or its handle has been cancelled, or else the array is [null]
    and the sink has never received a call: it was created by an opening
    that reached the coordinator after it had terminated. *)
Theorem no_handle_outlives_its_window (sel : Any -> SelectorResult)
        (openings : Producer) (inputs : list Input) (w : Addr) :
  In (NewSubject w) (trace (lifetime sel openings inputs)) ->
  In (NewSubscription (S w)) (trace (lifetime sel openings inputs)) /\
  (forall c, In c (active (lifetime sel openings inputs)) ->
             subscription c = S (window c)) /\
  (forall ev, In ev (trace (lifetime sel openings inputs)) ->
              sink_terminal w ev = true ->
              In (SubscriptionUnsubscribe (S w)) (trace (lifetime sel openings inputs))) /\
  (In w (map window (active (lifetime sel openings inputs))) \/
   In (SubscriptionUnsubscribe (S w)) (trace (lifetime sel openings inputs)) \/
   (contexts (lifetime sel openings inputs) = None /\
    forall ev, In ev (trace (lifetime sel openings inputs)) -> sink_call w ev = false)).
Proof.
  destruct (lifetime_cases sel openings inputs) as [ins [-> | [Hn ->]]];
    pose proof (Orderly_run ins (Orderly_initial sel)) as HO;
    pose proof (Inv_run ins (Inv_initial sel)) as HI;
    set (s := run (initial sel) ins) in *; intros Hnew.
  - split; [apply (ord_created HO); exact Hnew|].
    split; [apply (ord_handle HO)|].
    split; [intros ev; apply (ord_cancelled HO)|].
    destruct (created_sink_of_run sel ins w Hnew) as [H|H]; auto.
  - assert (active (orphaned s) = active s) as Ha by reflexivity.
    rewrite Ha; unfold orphaned at 1 2 3 4 5 6; cbn [trace contexts].
    cbn [trace orphaned] in Hnew.
    apply in_app_or in Hnew as [Hnew | [Hnew | [Hnew | []]]]; try discriminate.
    + split; [apply in_or_app; left; apply (ord_created HO); exact Hnew|].
      split; [apply (ord_handle HO)|].
      split.
      * intros ev Hev Hte; apply in_or_app; left.
        apply in_app_or in Hev as [Hev | [<- | [<- | []]]]; try discriminate.
        apply (ord_cancelled HO w ev); assumption.
      * destruct (created_sink_of_run sel ins w Hnew) as [H|H]; auto.
        right; left; apply in_or_app; left; exact H.
    + inversion Hnew; subst w; clear Hnew.
      pose proof (inv_fresh HI (le_n (next_addr s))) as Hf.
      split; [apply in_or_app; right; right; left; reflexivity|].
      split; [apply (ord_handle HO)|].
      split.
      * intros ev Hev Hte; exfalso.
        apply in_app_or in Hev as [Hev | [<- | [<- | []]]].
        -- apply sink_state_Fresh in Hf as [_ Hf].
           rewrite (Hf ev Hev) in Hte; discriminate.
        -- discriminate.
        -- discriminate.
      * right; right; split; [exact Hn|].
        intros ev Hev.
        apply in_app_or in Hev as [Hev | [<- | [<- | []]]]; try reflexivity.
        apply (sink_state_Fresh_calls _ _ Hf); exact Hev.
Qed.


(** ** An opening that reaches a terminated coordinator *)

(** C2. A sink that is created and never enters the array.  Let the
    openings send two values during the subscribe call of the constructor,
    the selector throwing on the first and returning on the second.  The
    first is the Error transition: the array is [null] and the coordinator
    is closed, but the openings' handle is composed only when
    [subscribeToResult] returns, so nothing stops the openings.  The second
    value reaches [notifyNext], which creates the sink [1] and the handle
    [2] and then faults on [this.contexts.push].  The sink [1] was created
    and has received no terminal call, and yet it is not in the array; its
    handle is never cancelled. *)
Theorem opening_after_termination_leaves_sink_out_of_array
        (sel : Any -> SelectorResult) (v1 v2 e : Any) (p rest : Producer) :
  sel v1 = Throws e -> sel v2 = Returns p ->
  let s := snd (WindowToggleSubscriber_new sel (OnNext v1 :: OnNext v2 :: rest)) in
  WindowToggleSubscriber_new sel (OnNext v1 :: OnNext v2 :: rest) =
    (Throw TypeError,
     mkState None 0 sel true true true 3
             [DestinationError e; TeardownChildren; NewSubject 1; NewSubscription 2]) /\
  In (NewSubject 1) (trace s) /\
  (forall ev, In ev (trace s) -> sink_terminal 1 ev = false) /\
  ~ In 1 (map window (active s)) /\
  ~ In (SubscriptionUnsubscribe 2) (trace s) /\
  ~ (In 1 (map window (active s)) <->
     In (NewSubject 1) (trace s) /\
     forall ev, In ev (trace s) -> sink_terminal 1 ev = false).
Proof.
  intros H1 H2.
  assert (WindowToggleSubscriber_new sel (OnNext v1 :: OnNext v2 :: rest) =
          (Throw TypeError,
           mkState None 0 sel true true true 3
                   [DestinationError e; TeardownChildren;
                    NewSubject 1; NewSubscription 2])) as E.
  { rewrite WindowToggleSubscriber_new_eq.
    cbn [InnerSubscriber_deliver].
    unfold bind at 1; unfold bind at 1.
    rewrite constructing_opening_eq by (simpl; lia).
    rewrite notifyNext_selector_throws with (e := e) by exact H1.
    rewrite error_eq by reflexivity.
    unfold bind at 1.
    rewrite constructing_opening_eq by (simpl; lia).
    change (notifyNext TagOpenings v2)
      with (notifyNext_on this_from_inner TagOpenings v2).
    rewrite notifyNext_on_opening_null with (p := p) by (try exact H2; reflexivity).
    reflexivity. }
  rewrite E; cbv zeta; cbn [snd trace active contexts map].
  assert (forall ev,
             In ev [DestinationError e; TeardownChildren;
                    NewSubject 1; NewSubscription 2] ->
             sink_terminal 1 ev = false) as Hno.
  { intros ev [<-|[<-|[<-|[<-|[]]]]]; reflexivity. }
  split; [reflexivity|].
  split; [simpl; auto|].
  split; [exact Hno|].
  split; [intros []|].
  split.
  - intros [H|[H|[H|[H|[]]]]]; discriminate.
  - intros [_ H]; apply H; split; [simpl; auto | exact Hno].
Qed.


End WindowToggle.

(** * Concrete runs *)

(** A closing selector over numbers.  Opening [0] yields a notifier that
    fires later (nothing is sent during the subscribe call), [1] an empty
    producer, [2] a producer that sends one value and completes at once,
    [3] a producer that fails at once; on any other opening the selector
    throws [5]. *)
Definition example_selector (value : Z) : @SelectorResult Z :=
  match value with
  | 0%Z => Returns []
  | 1%Z => Returns [OnComplete]
  | 2%Z => Returns [OnNext 7%Z; OnComplete]
  | 3%Z => Returns [OnError 9%Z]
  | _ => Throws 5%Z
  end.

(** One window open, its closing notifier pending. *)
Definition one_window : @State Z Z :=
  run (initial example_selector) [OpeningsNext 0%Z].

(** Two windows open. *)
Definition two_windows : @State Z Z :=
  run (initial example_selector) [OpeningsNext 0%Z; OpeningsNext 0%Z].

Example two_windows_active :
  active two_windows = [mkContext 1 2; mkContext 4 5].
Proof. reflexivity. Qed.

(** C1.  One window is open and its closing notifier has not fired.  A
    second opening arrives whose closing notifier sends a value and
    completes during the subscribe call, so the handle comes back closed.
    The value has already closed the new context (sink [4]); the closed
    branch then calls [closeWindow(this.contexts.length - 1)], which is now
    the index of the earlier context: sink [1] is completed and handle [2]
    cancelled although their own notifier is still pending. *)
Theorem immediate_close_hits_earlier_window :
  active one_window = [mkContext 1 2] /\
  closingSelector one_window 2%Z = Returns [OnNext 7%Z; OnComplete] /\
  fst (step (OpeningsNext 2%Z) one_window) = Normal tt /\
  contexts (snd (step (OpeningsNext 2%Z) one_window)) = Some [] /\
  trace (snd (step (OpeningsNext 2%Z) one_window)) =
    trace one_window ++
    [NewSubject 4; NewSubscription 5;
     WindowComplete 4; SubscriptionUnsubscribe 5;
     WindowComplete 1; SubscriptionUnsubscribe 2;
     DestinationNext 4].
Proof. repeat split. Qed.

(** The same closed branch when the notifier fails during the subscribe
    call: the Error transition has set the array to [null], reading
    [this.contexts.length] is a [TypeError], and the window is never
    delivered. *)
Lemma immediate_error_throws :
  closingSelector one_window 3%Z = Returns [OnError 9%Z] /\
  fst (step (OpeningsNext 3%Z) one_window) = Throw TypeError /\
  existsb (fun ev => match ev with DestinationNext 4 => true | _ => false end)
          (trace (snd (step (OpeningsNext 3%Z) one_window))) = false.
Proof. repeat split. Qed.

(** The intended case on the same state: an empty producer. *)
Lemma immediate_close_of_empty_producer :
  contexts (snd (step (OpeningsNext 1%Z) one_window)) = Some [mkContext 1 2] /\
  trace (snd (step (OpeningsNext 1%Z) one_window)) =
    trace one_window ++
    [NewSubject 4; NewSubscription 5;
     WindowComplete 4; SubscriptionUnsubscribe 5;
     DestinationNext 4].
Proof. repeat split. Qed.

(** C3 with two windows open and cause [9]. *)
Lemma fault_reaches_every_window_then_downstream_witness :
  isStopped two_windows = false /\
  closed two_windows = false /\
  error 9%Z two_windows =
    (Normal tt,
     terminated_with
       ([WindowError 1 9%Z; SubscriptionUnsubscribe 2;
         WindowError 4 9%Z; SubscriptionUnsubscribe 5] ++
        [DestinationError 9%Z; TeardownChildren]) two_windows).
Proof.
  split; [reflexivity|]; split; [reflexivity|].
  exact (proj1 (fault_reaches_every_window_then_downstream
                  two_windows 9%Z eq_refl eq_refl)).
Defined.

(** C4 with two windows open: the selector throws [5] on opening [4]. *)
Lemma selector_fault_opens_no_window_witness :
  closingSelector two_windows 4%Z = Throws 5%Z /\
  notifyNext TagOpenings 4%Z two_windows = error 5%Z two_windows /\
  fst (notifyNext TagOpenings 4%Z two_windows) = Normal tt /\
  next_addr (snd (notifyNext TagOpenings 4%Z two_windows)) = next_addr two_windows.
Proof.
  split; [reflexivity|].
  destruct (selector_fault_opens_no_window two_windows 4%Z (e := 5%Z) eq_refl)
    as (H1 & H2 & H3 & _).
  repeat split; assumption.
Defined.

(** C5 with two windows open and source value [8]. *)
Lemma source_value_fans_out_witness :
  _next 8%Z two_windows =
    (Normal tt,
     with_trace (trace two_windows ++ [WindowNext 1 8%Z; WindowNext 4 8%Z]) two_windows).
Proof. exact (proj1 (source_value_fans_out two_windows 8%Z)). Defined.

(** C6 with two windows open. *)
Lemma source_completion_teardown_witness :
  isStopped two_windows = false /\
  closed two_windows = false /\
  complete two_windows =
    (Normal tt,
     terminated_with
       ([WindowComplete 1; SubscriptionUnsubscribe 2;
         WindowComplete 4; SubscriptionUnsubscribe 5] ++
        [DestinationComplete; TeardownChildren]) two_windows).
Proof.
  split; [reflexivity|]; split; [reflexivity|].
  exact (proj1 (source_completion_teardown two_windows eq_refl eq_refl)).
Defined.

(** C7 with two windows open. *)
Lemma cancellation_teardown_witness :
  closed two_windows = false /\
  unsubscribe two_windows =
    (Normal tt,
     terminated_with
       ([WindowUnsubscribe 1; SubscriptionUnsubscribe 2;
         WindowUnsubscribe 4; SubscriptionUnsubscribe 5] ++
        [TeardownChildren]) two_windows).
Proof.
  split; [reflexivity|].
  exact (proj1 (cancellation_teardown two_windows eq_refl)).
Defined.

(** C10 on a [null] array, on an empty array, and with two windows open,
    closing index [0]. *)
Lemma closeWindow_frame_witness :
  closeWindow (-1) (snd (error 9%Z two_windows)) =
    (Normal tt, snd (error 9%Z two_windows)) /\
  closeWindow (-1) (initial (T := Z) example_selector) =
    (Normal tt, initial example_selector) /\
  closeWindow (-1) two_windows = (Normal tt, two_windows) /\
  exists l1 c l2,
    [mkContext 1 2; mkContext 4 5] = l1 ++ c :: l2 /\
    Z.of_nat (length l1) = 0%Z /\
    closeWindow 0 two_windows =
      (Normal tt,
       with_trace
         (trace two_windows ++
          [WindowComplete (window c); SubscriptionUnsubscribe (subscription c)])
         (with_contexts (Some (l1 ++ l2)) two_windows)).
Proof.
  split; [exact (proj1 (closeWindow_frame (snd (error 9%Z two_windows))))|].
  split; [exact (proj1 (closeWindow_frame (T := Z) (initial example_selector)))|].
  destruct (closeWindow_frame two_windows) as (H1 & H2 & _).
  split; [exact H1|].
  apply (H2 [mkContext 1 2; mkContext 4 5] 0%Z eq_refl).
  simpl; lia.
Defined.



(** ** Concrete runs for the further properties *)

(** A closing selector whose notifiers, but for opening [0], replay two
    values during the subscribe call and stay open. *)
Definition replaying_selector (value : Z) : @SelectorResult Z :=
  match value with
  | 0%Z => Returns []
  | _ => Returns [OnNext 7%Z; OnNext 8%Z]
  end.

(** One window open under [replaying_selector]. *)
Definition one_window_replaying : @State Z Z :=
  run (initial replaying_selector) [OpeningsNext 0%Z].

(** X3 on the run that opens a window and then completes the source. *)
Lemma downstream_hears_nothing_after_terminal_witness :
  trace (run (T := Z) (initial example_selector) [OpeningsNext 0%Z; SourceComplete]) =
    [NewSubject 1; NewSubscription 2; SubscriptionAdd 2 3; DestinationNext 1;
     WindowComplete 1; SubscriptionUnsubscribe 2] ++
    DestinationComplete :: [TeardownChildren] /\
  downstream_terminal (T := Z) (Any := Z) DestinationComplete = true /\
  downstream_event (T := Z) (Any := Z) TeardownChildren = false.
Proof.
  split; [reflexivity|]; split; [reflexivity|].
  apply (downstream_hears_nothing_after_terminal (T := Z) example_selector
           [OpeningsNext 0%Z; SourceComplete]
           [NewSubject 1; NewSubscription 2; SubscriptionAdd 2 3; DestinationNext 1;
            WindowComplete 1; SubscriptionUnsubscribe 2]
           [TeardownChildren] DestinationComplete eq_refl eq_refl).
  left; reflexivity.
Defined.

(** X5 with two windows open: two source values, then the first window's
    closing notifier emits. *)
Lemma window_carries_values_while_open_witness :
  In (mkContext 1 2)
     (active (run (T := Z) (initial example_selector)
                  [OpeningsNext 0%Z; OpeningsNext 0%Z])) /\
  filter (sink_call 1)
         (trace (run (initial example_selector)
                     ([OpeningsNext 0%Z; OpeningsNext 0%Z] ++
                      map SourceNext [8%Z; 9%Z] ++ [ClosingNext (mkContext 1 2) 7%Z]))) =
    filter (sink_call 1)
           (trace (run (initial example_selector) [OpeningsNext 0%Z; OpeningsNext 0%Z])) ++
    map (WindowNext 1) [8%Z; 9%Z] ++ [WindowComplete 1].
Proof.
  assert (In (mkContext 1 2)
             (active (run (T := Z) (initial example_selector)
                          [OpeningsNext 0%Z; OpeningsNext 0%Z]))) as H
      by (simpl; auto).
  split; [exact H|].
  exact (proj1 (window_carries_values_while_open example_selector
                  [OpeningsNext 0%Z; OpeningsNext 0%Z] (mkContext 1 2)
                  [8%Z; 9%Z] 7%Z H)).
Defined.

(** X7 with one window open: the second opening gets an empty producer. *)
Lemma exhausted_notifier_gives_completed_window_witness :
  closingSelector one_window 1%Z = Returns [OnComplete] /\
  contexts one_window = Some [mkContext 1 2] /\
  contexts (snd (notifyNext TagOpenings 1%Z one_window)) = Some [mkContext 1 2].
Proof.
  split; [reflexivity|]; split; [reflexivity|].
  rewrite (exhausted_notifier_gives_completed_window one_window 1%Z
             (rest := []) (l := [mkContext 1 2]) eq_refl eq_refl).
  reflexivity.
Defined.

(** X8 with one window open: the second opening gets a notifier that
    replays two values. *)
Lemma eager_notifier_closes_only_its_window_witness :
  closingSelector one_window_replaying 1%Z = Returns [OnNext 7%Z; OnNext 8%Z] /\
  contexts one_window_replaying = Some [mkContext 1 2] /\
  contexts (snd (notifyNext TagOpenings 1%Z one_window_replaying)) =
    Some [mkContext 1 2].
Proof.
  split; [reflexivity|]; split; [reflexivity|].
  assert (forall c, In c [mkContext 1 2] -> window c < next_addr one_window_replaying)
    as Hfresh by (intros c [<-|[]]; simpl; lia).
  rewrite (eager_notifier_closes_only_its_window one_window_replaying 1%Z
             (v := 7%Z) (rest := [OnNext 8%Z]) (l := [mkContext 1 2])
             eq_refl eq_refl eq_refl Hfresh).
  reflexivity.
Defined.

(** X9 with one window open: the second opening gets a notifier that fails
    at once. *)
Lemma failing_notifier_terminates_then_throws_witness :
  closingSelector one_window 3%Z = Returns [OnError 9%Z] /\
  contexts one_window = Some [mkContext 1 2] /\
  isStopped one_window = false /\
  closed one_window = false /\
  fst (notifyNext TagOpenings 3%Z one_window) = Throw TypeError.
Proof.
  repeat (split; [reflexivity|]).
  rewrite (failing_notifier_terminates_then_throws one_window 3%Z
             (e := 9%Z) (rest := []) (l := [mkContext 1 2])
             eq_refl eq_refl eq_refl eq_refl).
  reflexivity.
Defined.

(** X10 with openings that send two values and complete at subscription. *)
Lemma construction_handles_openings_as_a_run_witness :
  calm_openings example_selector [OnNext 0%Z; OnNext 2%Z; OnComplete] = true /\
  WindowToggleSubscriber_new (T := Z) example_selector
                             [OnNext 0%Z; OnNext 2%Z; OnComplete] =
  (Normal tt,
   run (initial example_selector) [OpeningsNext 0%Z; OpeningsNext 2%Z; OpeningsComplete]).
Proof.
  split; [reflexivity|].
  exact (construction_handles_openings_as_a_run (T := Z) example_selector
           [OnNext 0%Z; OnNext 2%Z; OnComplete] eq_refl).
Defined.

(** X11 with one opening and a source of two values, all at subscription. *)
Lemma operator_subscribes_openings_before_source_witness :
  calm_openings example_selector [OnNext 0%Z] = true /\
  call (windowToggle [OnNext 0%Z] example_selector)
       [SourceSendsNext 5%Z; SourceSendsNext 6%Z] =
  (Normal tt,
   run (initial example_selector)
       ([OpeningsNext 0%Z] ++ [SourceNext 5%Z; SourceNext 6%Z])).
Proof.
  split; [reflexivity|].
  exact (operator_subscribes_openings_before_source example_selector
           [OnNext 0%Z] [SourceSendsNext 5%Z; SourceSendsNext 6%Z] eq_refl).
Defined.

(** X12 with a source of two values. *)
Lemma window_opened_at_subscription_carries_the_source_witness :
  example_selector 0%Z = Returns [] /\
  call (windowToggle [OnNext 0%Z] example_selector)
       (map SourceSendsNext [5%Z; 6%Z] ++ [SourceSendsComplete]) =
  (Normal tt,
   mkState None 0 example_selector true true true 4
           ([NewSubject 1; NewSubscription 2; SubscriptionAdd 2 3; DestinationNext 1] ++
            map (WindowNext 1) [5%Z; 6%Z] ++
            [WindowComplete 1; SubscriptionUnsubscribe 2;
             DestinationComplete; TeardownChildren])).
Proof.
  split; [reflexivity|].
  exact (window_opened_at_subscription_carries_the_source example_selector 0%Z
           [5%Z; 6%Z] eq_refl).
Defined.

(** ** Concrete runs from the construction on *)

(** C2 with openings that send [4] and then [0] during the subscribe call
    of the constructor: the selector throws on [4], and returns on [0]. *)
Lemma opening_after_termination_leaves_sink_out_of_array_witness :
  example_selector 4%Z = Throws 5%Z /\
  example_selector 0%Z = Returns [] /\
  WindowToggleSubscriber_new (T := Z) example_selector [OnNext 4%Z; OnNext 0%Z] =
    (Throw TypeError,
     mkState None 0 example_selector true true true 3
             [DestinationError 5%Z; TeardownChildren; NewSubject 1; NewSubscription 2]).
Proof.
  split; [reflexivity|]; split; [reflexivity|].
  exact (proj1 (@opening_after_termination_leaves_sink_out_of_array
                  Z Z example_selector 4%Z 0%Z 5%Z [] [] eq_refl eq_refl)).
Defined.

(** C8 with one window open: the closing notifier of a second opening
    sends [7] and completes during the subscribe call, and the window
    opened first is closed by it. *)
Lemma completion_during_subscribe_closes_by_position_witness :
  closingSelector one_window 2%Z = Returns [OnNext 7%Z; OnComplete] /\
  contexts one_window = Some [mkContext 1 2] /\
  notifyNext TagOpenings 2%Z one_window =
    (Normal tt,
     mkState (Some []) 0 example_selector false false false 7
             (trace one_window ++
              [NewSubject 4; NewSubscription 5;
               WindowComplete 4; SubscriptionUnsubscribe 5;
               WindowComplete 1; SubscriptionUnsubscribe 2;
               DestinationNext 4])).
Proof.
  split; [reflexivity|]; split; [reflexivity|].
  assert (forall c, In c ([] ++ [mkContext 1 2]) -> window c < next_addr one_window) as Hf.
  { intros c [<-|[]]; simpl; lia. }
  exact (proj2 (@completion_during_subscribe_closes_by_position
                  Z Z one_window 2%Z 7%Z [] [] [] (mkContext 1 2)
                  eq_refl eq_refl eq_refl Hf)).
Defined.

(** X1 on a coordinator that terminated during its construction, the
    selector having thrown on the one value that the openings sent: a source
    value, a value of a closing notifier, and an opening on which the
    selector returns. *)
Lemma terminated_coordinator_returns_or_faults_witness :
  contexts (lifetime (T := Z) example_selector [OnNext 4%Z] []) = None /\
  next 8%Z (lifetime example_selector [OnNext 4%Z] []) =
    (Normal tt, lifetime example_selector [OnNext 4%Z] []) /\
  notifyNext (TagContext (mkContext 1 2)) 7%Z
             (lifetime (T := Z) example_selector [OnNext 4%Z] []) =
    (Throw TypeError, lifetime example_selector [OnNext 4%Z] []) /\
  notifyNext TagOpenings 0%Z (lifetime (T := Z) example_selector [OnNext 4%Z] []) =
    (Throw TypeError, orphaned (lifetime example_selector [OnNext 4%Z] [])).
Proof.
  destruct (terminated_coordinator_returns_or_faults
              (T := Z) example_selector [OnNext 4%Z] [] eq_refl)
    as (_ & _ & H1 & _ & _ & _ & _ & H6 & _ & _ & _ & H10).
  split; [reflexivity|].
  split; [exact (H1 8%Z)|].
  split; [exact (H6 (mkContext 1 2) 7%Z)|].
  exact (proj1 (H10 0%Z [] eq_refl)).
Defined.

(** X2 over a life in which the openings send [0], [4] and [0] during the
    subscribe call of the constructor: a window is opened, the selector
    throws and the window is torn down, and a third opening finds the
    coordinator terminated.  The sink [1] has had its handle cancelled;
    the sink [4] is in no context and has received no call. *)
Lemma no_handle_outlives_its_window_witness :
  In (NewSubject 1)
     (trace (lifetime (T := Z) example_selector [OnNext 0%Z; OnNext 4%Z; OnNext 0%Z] [])) /\
  In (NewSubscription 2)
     (trace (lifetime (T := Z) example_selector [OnNext 0%Z; OnNext 4%Z; OnNext 0%Z] [])) /\
  In (NewSubject 4)
     (trace (lifetime (T := Z) example_selector [OnNext 0%Z; OnNext 4%Z; OnNext 0%Z] [])) /\
  In (NewSubscription 5)
     (trace (lifetime (T := Z) example_selector [OnNext 0%Z; OnNext 4%Z; OnNext 0%Z] [])) /\
  (In 4 (map window
             (active (lifetime (T := Z) example_selector
                               [OnNext 0%Z; OnNext 4%Z; OnNext 0%Z] []))) \/
   In (SubscriptionUnsubscribe 5)
      (trace (lifetime (T := Z) example_selector
                       [OnNext 0%Z; OnNext 4%Z; OnNext 0%Z] [])) \/
   (contexts (lifetime (T := Z) example_selector
                       [OnNext 0%Z; OnNext 4%Z; OnNext 0%Z] []) = None /\
    forall ev,
      In ev (trace (lifetime (T := Z) example_selector
                             [OnNext 0%Z; OnNext 4%Z; OnNext 0%Z] [])) ->
      sink_call 4 ev = false)).
Proof.
  assert (In (NewSubject 1)
             (trace (lifetime (T := Z) example_selector
                              [OnNext 0%Z; OnNext 4%Z; OnNext 0%Z] []))) as H1
      by (simpl; auto).
  assert (In (NewSubject 4)
             (trace (lifetime (T := Z) example_selector
                              [OnNext 0%Z; OnNext 4%Z; OnNext 0%Z] []))) as H4
      by (simpl; auto 10).
  split; [exact H1|].
  split; [exact (proj1 (no_handle_outlives_its_window
                          (T := Z) example_selector
                          [OnNext 0%Z; OnNext 4%Z; OnNext 0%Z] [] 1 H1))|].
  split; [exact H4|].
  destruct (no_handle_outlives_its_window
              (T := Z) example_selector
              [OnNext 0%Z; OnNext 4%Z; OnNext 0%Z] [] 4 H4) as (H & _ & _ & H').
  split; [exact H | exact H'].
Defined.
